(** * micromatch: the glob resolver of [index.js]

    A shallow embedding of [index.js] (micromatch, 2014-2015) and the
    properties of its pattern compiler, its single-slot cache, its
    collection matcher, its multi-pattern resolver, and its key and
    collection filters.

    The module keeps three mutable variables ([globRe], [cache],
    [optsCache]), mutates the options object it is handed
    ([opts.negated]), hands that object on to the translator and to the
    normaliser, and tests paths on [RegExp] objects, whose [lastIndex]
    moves under the flags [g] and [y].  All of it is modelled: the module
    variables, a store of options objects and a store of [RegExp] objects
    form the [state] that every function threads; options and matchers are
    passed by reference ([loc]), so that aliasing between the caller's
    object and [optsCache], and between the matcher a caller holds and
    [globRe], is kept. *)

From Stdlib Require Import Ascii String.
From stdpp Require Import base option list gmap strings.

Open Scope string_scope.

(** ** JavaScript values met in an options object *)

Inductive value :=
| VUndefined
| VBool (b : bool)
| VString (s : string).

#[global] Instance value_eq_dec : EqDecision value.
Proof. solve_decision. Defined.

(** ToBoolean *)
Definition truthy (v : value) : bool :=
  match v with
  | VUndefined => false
  | VBool b => b
  | VString s => negb (String.eqb s "")
  end.

(** ToString, as [+=] and the [RegExp] constructor apply it to the flags. *)
Definition to_string (v : value) : string :=
  match v with
  | VUndefined => "undefined"
  | VBool true => "true"
  | VBool false => "false"
  | VString s => s
  end.

(** An options object: its own enumerable properties. *)
Abbreviation obj := (gmap string value).

(** Property read [o[k]]: a missing property reads as [undefined]. *)
Definition get (o : obj) (k : string) : value := default VUndefined (o !! k).

(** ** Strings *)

(** [s.charAt(0) === '!'], and [s.charCodeAt(0) === 33]. *)
Definition starts_with_bang (s : string) : bool :=
  match s with
  | String c _ => bool_decide (c = "!"%char)
  | EmptyString => false
  end.

(** [s.slice(1)] *)
Definition slice1 (s : string) : string :=
  match s with
  | String _ r => r
  | EmptyString => EmptyString
  end.

(** ** Compiled matchers, errors, results *)

(** A [RegExp] object: the source and the flags it was built from, and
    its [lastIndex], which [new RegExp] sets to 0. *)
Record RegExp := mkRegExp { source : string; flags : string; lastIndex : nat }.

#[global] Instance RegExp_eq_dec : EqDecision RegExp.
Proof. solve_decision. Defined.

(** Whether [flags] has the flag [c]. *)
Definition has_flag (c : ascii) (flags : string) : bool :=
  existsb (Ascii.eqb c) (list_ascii_of_string flags).

(** The flags under which [test] starts at [lastIndex] and moves it:
    global and sticky. *)
Definition stateful (flags : string) : bool :=
  has_flag "g" flags || has_flag "y" flags.

(** The ways a call can fail: the [throw] of [match]; the [TypeError] the
    runtime raises when [isMatch] indexes the [null] that [exec] returned;
    the [SyntaxError] of [new RegExp] on a source or flags it does not
    accept; and whatever the translator throws. *)
Inductive error := InvalidInputKind | TypeError | SyntaxError | TranslatorError.

Inductive outcome (A : Type) :=
| Ok (a : A)
| Throw (e : error).
Arguments Ok {A} a.
Arguments Throw {A} e.

(** References to objects: options objects and [RegExp] objects. *)
Definition loc := positive.

(** What [match] returns: an array of paths, or, under [nonull], the
    compiled pattern itself. *)
Inductive match_result :=
| MFiles (l : list string)
| MPattern (re : loc).

(** The array-like content of a result, as [push.apply] reads it: a
    [RegExp] has no [length], so it contributes no element. *)
Definition elements (m : match_result) : list string :=
  match m with
  | MFiles l => l
  | MPattern _ => []
  end.

(** ** Arguments *)

(** The [files] argument of the resolver and of [match], when it is a
    string or an array of strings. *)
Inductive candidates :=
| CString (s : string)
| CArray (l : list string).

(** The [files] argument of [match]: a string or an array, or any other
    value ([undefined], a number, a plain object, ...). *)
Inductive files_arg :=
| FCand (c : candidates)
| FOther.

(** The [patterns] argument of the resolver. *)
Inductive patterns_arg :=
| PString (p : string)
| PArray (l : list string).

(** ** The module state *)

Record state := State {
  globRe : option loc;         (* [undefined] and [null] are both [None] *)
  cache : option string;
  optsCache : option loc;
  heap : gmap loc obj;         (* the options objects, by reference *)
  regexps : gmap loc RegExp;   (* the [RegExp] objects, by reference *)
  translated : list string     (* ghost: the globs handed to [expand], latest first *)
}.

Definition deref (s : state) (r : loc) : obj := default ∅ (heap s !! r).

(** A computation of the module: it can throw, and it leaves a state. *)
Definition M (A : Type) := state → outcome A * state.

(** An assignment to the options object [r]. *)
Definition store (r : loc) (o : obj) (s : state) : state :=
  State (globRe s) (cache s) (optsCache s) (<[r := o]> (heap s)) (regexps s)
        (translated s).

(** The options object [r] after a callee that was handed it has
    returned, leaving it with the properties [o]; a callee that wrote
    nothing leaves the store as it is. *)
Definition write_back (r : loc) (o : obj) (s : state) : state :=
  if decide (deref s r = o) then s else store r o s.

(** ** Collaborators that are not in [index.js] *)

(** The fields of [parsed] that [makeRe] reads. *)
Record parsed := Parsed { parsed_glob : string; parsed_negated : bool }.

(** [expand] is [./lib/expand], the glob translator, and [unixify] is
    [utils.unixify].  Both are handed the caller's options object by
    reference: they are given its properties and return, next to their
    result, the properties they leave it with.  [expand] can throw
    ([None]).  [regex_valid src flags] tells whether [new RegExp(src,
    flags)] accepts its arguments; [regex_exec src flags i str] is the
    match that the [RegExp] built from [src] and [flags] finds in [str]
    when the search starts at index [i]: [None] for no match, [Some e] for
    a match that ends at index [e].  [fileRe_exec str] is
    [fileRe().exec(str)] on the fresh, flagless [RegExp] that
    [filename-regex] builds on each call: [None] for [null] and [Some m]
    for a match whose element 0 is [m]. *)
Class Collaborators := {
  expand : string → obj → option parsed * obj;
  unixify : string → obj → string * obj;
  regex_valid : string → string → bool;
  regex_exec : string → string → nat → string → option nat;
  fileRe_exec : string → option string
}.

(** A callee that writes nothing to the options object it is handed. *)
Definition reads_only {A : Type} (f : string → obj → A * obj) : Prop :=
  ∀ x o, (f x o).2 = o.


(** Modelled from the spec: [utils.arrayify] ([./lib/utils] is not in the
    sources) coerces a single string into a one-element sequence and
    leaves a sequence as it is. *)
Definition arrayify (c : candidates) : list string :=
  match c with
  | CString s => [s]
  | CArray l => l
  end.

(** Modelled from the spec: [diff] is the package [arr-diff], which is not
    in the sources; the spec describes it as a set difference by value
    that is insensitive to multiplicity.  It keeps, in order, the
    elements of [a] that do not occur in [b]. *)
Definition diff (a b : list string) : list string :=
  List.filter (λ x, bool_decide (x ∉ b)) a.

(** ** [wrapGlob] *)

Definition wrapGlob (glob : string) (negate : value) : string :=
  let glob := "(?:" +:+ glob +:+ ")$" in
  "^" +:+ (if truthy negate then "(?!^" +:+ glob +:+ ").*$" else glob).

(** ** [equal] *)

(** [equal(a, b)] with [b] an object: every property of [b] is an own
    property of [a] with a strictly equal value. *)
Definition equal (a b : obj) : bool :=
  forallb (λ kv, bool_decide (a !! kv.1 = Some kv.2)) (map_to_list b).

(** ** [makeRe] *)

(** [options || {}]: an absent options argument is replaced by a new,
    empty object. *)
Definition or_new (options : option loc) (s : state) : loc * state :=
  match options with
  | Some r => (r, s)
  | None =>
      let r := fresh (dom (heap s)) in
      (r, store r ∅ s)
  end.

(** [opts.flags || ''] *)
Definition flags_of (o : obj) : string :=
  if truthy (get o "flags") then to_string (get o "flags") else "".

(** [opts.negated || parsed.negated || false] *)
Definition negated_of (o : obj) (parsed_negated : bool) : value :=
  if truthy (get o "negated") then get o "negated" else VBool parsed_negated.

Section Core.
Context `{Collaborators}.

(** ** [RegExp.prototype.test]

    Without the flags [g] and [y] the search starts at index 0 and
    [lastIndex] is left alone (as from ECMAScript 2015; in the fifth
    edition a failure writes 0 to it, which is its value in every object
    [makeRe] creates); with one of them it starts at [lastIndex], which a
    match moves to its end and a failure resets to 0.  A reference is
    always to an object of the store; for one that is not, the test
    answers [false]. *)
Definition test (re : loc) (str : string) (s : state) : bool * state :=
  match regexps s !! re with
  | None => (false, s)
  | Some r =>
      let set_lastIndex i :=
        State (globRe s) (cache s) (optsCache s) (heap s)
              (<[re := mkRegExp (source r) (flags r) i]> (regexps s)) (translated s) in
      if stateful (flags r) then
        match regex_exec (source r) (flags r) (lastIndex r) str with
        | Some e => (true, set_lastIndex e)
        | None => (false, set_lastIndex 0)
        end
      else
        match regex_exec (source r) (flags r) 0 str with
        | Some _ => (true, s)
        | None => (false, s)
        end
  end.

Definition makeRe (glob : string) (options : option loc) : M loc :=
  λ s,
  let '(opts, s) := or_new options s in
  let flags := flags_of (deref s opts) in
  (* optsCache = typeof optsCache !== 'undefined' ? optsCache : opts *)
  let oc := default opts (optsCache s) in
  (* if (!equal(optsCache, opts)) { cache = glob; globRe = null; } *)
  let '(c, g) :=
    if equal (deref s oc) (deref s opts) then (cache s, globRe s)
    else (Some glob, None) in
  (* cache = typeof cache !== 'undefined' ? cache : glob *)
  let c := default glob c in
  (* if (cache !== glob) { glob = unixify(glob, opts); cache = glob; globRe = null; } *)
  let '(glob, c, g, s) :=
    if bool_decide (c = glob) then (glob, c, g, s)
    else
      let '(glob', o') := unixify glob (deref s opts) in
      (glob', glob', None, write_back opts o' s) in
  match g with
  | Some re =>
      (* if (globRe instanceof RegExp) return globRe *)
      (Ok re, State (Some re) (Some c) (Some oc) (heap s) (regexps s) (translated s))
  | None =>
      (* if (opts.nocase) flags += 'i' *)
      let flags :=
        if truthy (get (deref s opts) "nocase") then flags +:+ "i" else flags in
      (* var parsed = expand(glob, opts) *)
      let '(parsed, o') := expand glob (deref s opts) in
      let s := write_back opts o' s in
      let s := State None (Some c) (Some oc) (heap s) (regexps s)
                     (glob :: translated s) in
      match parsed with
      | None => (Throw TranslatorError, s)
      | Some parsed =>
          (* opts.negated = opts.negated || parsed.negated || false *)
          let negated := negated_of (deref s opts) (parsed_negated parsed) in
          let s := store opts (<["negated" := negated]> (deref s opts)) s in
          (* glob = wrapGlob(parsed.glob, opts.negated) *)
          let src := wrapGlob (parsed_glob parsed) negated in
          (* globRe = new RegExp(glob, flags) *)
          if regex_valid src flags then
            let re := fresh (dom (regexps s)) in
            (Ok re, State (Some re) (Some c) (Some oc) (heap s)
                          (<[re := mkRegExp src flags 0]> (regexps s)) (translated s))
          else (Throw SyntaxError, s)
      end
  end.

(** [if (!(pattern instanceof RegExp)) pattern = makeRe(pattern, opts)],
    as [isMatch], [matchKeys] and [filter] begin. *)
Definition to_regexp (pattern : loc + string) (opts : option loc) : M loc :=
  λ s,
  match pattern with
  | inl re => (Ok re, s)
  | inr glob => makeRe glob opts s
  end.

(** ** [isMatch] *)

Definition isMatch (fp : string) (pattern : loc + string) (opts : option loc)
  : M bool :=
  λ s,
  match to_regexp pattern opts s with
  | (Throw e, s) => (Throw e, s)
  | (Ok re, s) =>
      let matchBase :=
        match opts with
        | Some r => truthy (get (deref s r) "matchBase")
        | None => false
        end in
      if matchBase then
        match fileRe_exec fp with
        | None => (Throw TypeError, s)          (* matches[0] with matches null *)
        | Some m0 =>
            let '(b, s) := test re m0 s in
            if b then (Ok true, s)
            else let '(b, s) := test re fp s in (Ok b, s)
        end
      else let '(b, s) := test re fp s in (Ok b, s)
  end.

(** ** [match] *)

(** The [while] loop of [match]; [res] is the array being filled. *)
Fixpoint match_loop (pattern : loc) (opts : loc) (files res : list string)
  : M (list string) :=
  λ s,
  match files with
  | [] => (Ok res, s)
  | file :: rest =>
      let '(fp, o') := unixify file (deref s opts) in
      let s := write_back opts o' s in
      match isMatch fp (inl pattern) (Some opts) s with
      | (Throw e, s) => (Throw e, s)
      | (Ok false, s) => match_loop pattern opts rest res s
      | (Ok true, s) => match_loop pattern opts rest (res ++ [fp]) s
      end
  end.

Definition match_ (files : files_arg) (pattern : string) (options : option loc)
  : M match_result :=
  λ s,
  match files with
  | FOther => (Throw InvalidInputKind, s)
  | FCand c =>
      let files := arrayify c in
      let '(opts, s) := or_new options s in
      let o := deref s opts in
      let negate := truthy (get o "negate") in
      let '(negate, pattern) :=
        if bool_decide (get o "nonegate" = VBool true) then (negate, pattern)
        else if starts_with_bang pattern then (true, slice1 pattern)
        else (false, pattern) in
      match makeRe pattern (Some opts) s with
      | (Throw e, s) => (Throw e, s)
      | (Ok re, s) =>
          match match_loop re opts files [] s with
          | (Throw e, s) => (Throw e, s)
          | (Ok res, s) =>
              if negate then (Ok (MFiles (diff files res)), s)
              else if truthy (get (deref s opts) "nonull") && bool_decide (res = [])
              then (Ok (MPattern re), s)
              else (Ok (MFiles res), s)
          end
      end
  end.

(** ** [micromatch] *)

(** The [while] loop of [micromatch] over the patterns, with its two
    accumulators. *)
Fixpoint micromatch_loop (files : list string) (opts : loc)
    (patterns neg res : list string) : M (list string * list string) :=
  λ s,
  match patterns with
  | [] => (Ok (neg, res), s)
  | glob :: rest =>
      if starts_with_bang glob then
        match match_ (FCand (CArray files)) (slice1 glob) (Some opts) s with
        | (Throw e, s) => (Throw e, s)
        | (Ok m, s) => micromatch_loop files opts rest (neg ++ elements m) res s
        end
      else
        match match_ (FCand (CArray files)) glob (Some opts) s with
        | (Throw e, s) => (Throw e, s)
        | (Ok m, s) => micromatch_loop files opts rest neg (res ++ elements m) s
        end
  end.

(** [!files], for a string or an array: only the empty string is falsy. *)
Definition falsy_candidates (c : candidates) : bool :=
  match c with
  | CString s => String.eqb s ""
  | CArray _ => false
  end.

Definition falsy_patterns (p : patterns_arg) : bool :=
  match p with
  | PString s => String.eqb s ""
  | PArray _ => false
  end.

(** [files] and [patterns] are [None] when absent ([undefined], [null]). *)
Definition micromatch (files : option candidates) (patterns : option patterns_arg)
    (opts : option loc) : M match_result :=
  λ s,
  match files, patterns with
  | Some c, Some p =>
      if falsy_candidates c || falsy_patterns p then (Ok (MFiles []), s)
      else
        let files := arrayify c in
        let '(opts, s) := or_new opts s in
        match p with
        | PString pattern => match_ (FCand (CArray files)) pattern (Some opts) s
        | PArray patterns =>
            match micromatch_loop files opts patterns [] [] s with
            | (Throw e, s) => (Throw e, s)
            | (Ok (neg, res), s) => (Ok (MFiles (diff res neg)), s)
            end
        end
  | _, _ => (Ok (MFiles []), s)
  end.

(** ** [matchKeys] *)

(** The [while] loop of [matchKeys] over [keys], from the last key down;
    [res] is the object being filled.  [res[key] = obj[key]] copies the
    property; a key that [obj] does not have would read as [undefined],
    which is rendered here as no property. *)
Fixpoint matchKeys_loop {V : Type} (re : loc) (obj : gmap string V)
    (keys : list string) (len : nat) (res : gmap string V) (s : state)
  : gmap string V * state :=
  match len with
  | 0 => (res, s)
  | S len =>
      match keys !! len with
      | Some key =>
          let '(b, s) := test re key s in
          if b
          then matchKeys_loop re obj keys len (partial_alter (λ _, obj !! key) key res) s
          else matchKeys_loop re obj keys len res s
      | None => matchKeys_loop re obj keys len res s
      end
  end.

(** [obj] is an object with string keys; [Object.keys(obj)] is the list of
    its keys, in the order the map enumerates them. *)
Definition matchKeys {V : Type} (pattern : loc + string) (obj : gmap string V)
    (options : option loc) : M (gmap string V) :=
  λ s,
  match to_regexp pattern options s with
  | (Throw e, s) => (Throw e, s)
  | (Ok re, s) =>
      let keys := (map_to_list obj).*1 in
      let '(res, s) := matchKeys_loop re obj keys (length keys) ∅ s in
      (Ok res, s)
  end.

(** ** [filter] *)

(** The function [filter] returns: it holds the compiled pattern and the
    options object. *)
Record closure := Closure { closure_pattern : loc; closure_opts : loc }.

Definition filter (pattern : loc + string) (options : option loc) : M closure :=
  λ s,
  let '(opts, s) := or_new options s in
  match to_regexp pattern (Some opts) s with
  | (Throw e, s) => (Throw e, s)
  | (Ok re, s) => (Ok (Closure re opts), s)
  end.

(** What the returned function answers: a boolean for a string, an array
    for an array. *)
Inductive filter_result :=
| FBool (b : bool)
| FFiles (l : list string).

(** The [while (len--)] loop of the returned function; [res] starts as a
    copy of [files] and loses, by [splice], the entries that do not match.
    An index past the end would read [undefined], which [test] and [exec]
    turn into the string [undefined]; the loop starts at [files.length],
    so it never does. *)
Fixpoint filter_loop (cl : closure) (files : list string) (len : nat)
    (res : list string) : M (list string) :=
  λ s,
  match len with
  | 0 => (Ok res, s)
  | S len =>
      let file := default "undefined" (files !! len) in
      match isMatch file (inl (closure_pattern cl)) (Some (closure_opts cl)) s with
      | (Throw e, s) => (Throw e, s)
      | (Ok true, s) => filter_loop cl files len res s
      | (Ok false, s) => filter_loop cl files len (delete len res) s
      end
  end.

Definition filter_call (cl : closure) (files : candidates) : M filter_result :=
  λ s,
  match files with
  | CString file =>
      match isMatch file (inl (closure_pattern cl)) (Some (closure_opts cl)) s with
      | (Throw e, s) => (Throw e, s)
      | (Ok m, s) =>
          (* if (opts.inclusive && match !== false) return true *)
          if truthy (get (deref s (closure_opts cl)) "inclusive")
             && negb (Bool.eqb m false)
          then (Ok (FBool true), s)
          else (Ok (FBool m), s)
      end
  | CArray l =>
      match filter_loop cl l (length l) l s with
      | (Throw e, s) => (Throw e, s)
      | (Ok res, s) => (Ok (FFiles res), s)
      end
  end.

End Core.

(** ** A reference environment

    Concrete collaborators, used to run the functions above on examples.
    The translator knows literal globs only, reports a leading [!] as a
    negation (the comment above [makeRe]: if the leading character in the
    glob is [!] a negation regex is returned), never throws and writes
    nothing; the [RegExp] constructor accepts every source and the flags
    that are distinct letters among [g], [i], [m], [u], [y]; the matcher
    engine knows the two anchoring templates of [wrapGlob] around a
    literal fragment, on strings without line breaks: a match can only
    start at index 0 and ends at the end of the string, and the flag [i]
    makes the comparison blind to the case of letters; normalisation
    turns backslashes into slashes, as on a platform whose separator is
    the backslash, and writes nothing; the basename is the one
    [filename-regex] finds with [/([^\\\/]+)$/]. *)
Module Reference.

Fixpoint strip_prefix (p s : string) : option string :=
  match p, s with
  | EmptyString, _ => Some s
  | String a p', String b s' => if Ascii.eqb a b then strip_prefix p' s' else None
  | String _ _, EmptyString => None
  end.

Definition strip_suffix (suf s : string) : option string :=
  let n := String.length s - String.length suf in
  if (String.length suf <=? String.length s)%nat
     && String.eqb (String.substring n (String.length suf) s) suf
  then Some (String.substring 0 n s)
  else None.

(** The fragment [f] of a source [^(?:f)$] or [^(?!^(?:f)$).*$], with
    the polarity of the template. *)
Definition template (src : string) : option (bool * string) :=
  match strip_prefix "^(?!^(?:" src with
  | Some r => (λ f, (true, f)) <$> strip_suffix ")$).*$" r
  | None =>
      match strip_prefix "^(?:" src with
      | Some r => (λ f, (false, f)) <$> strip_suffix ")$" r
      | None => None
      end
  end.

Definition lower (c : ascii) : ascii :=
  let n := nat_of_ascii c in
  if (65 <=? n)%nat && (n <=? 90)%nat then ascii_of_nat (n + 32) else c.

Fixpoint lowercase (s : string) : string :=
  match s with
  | EmptyString => EmptyString
  | String c r => String (lower c) (lowercase r)
  end.

Definition same_text (flags a b : string) : bool :=
  if has_flag "i" flags then String.eqb (lowercase a) (lowercase b)
  else String.eqb a b.

Definition literal_exec (src flags : string) (i : nat) (str : string) : option nat :=
  match template src with
  | Some (negated, f) =>
      if (i =? 0)%nat && xorb negated (same_text flags str f)
      then Some (String.length str)
      else None
  | None => None
  end.

Fixpoint distinct_flags (l : list ascii) : bool :=
  match l with
  | [] => true
  | c :: r =>
      existsb (Ascii.eqb c) (list_ascii_of_string "gimuy")
      && negb (existsb (Ascii.eqb c) r) && distinct_flags r
  end.

Definition literal_valid (src flags : string) : bool :=
  distinct_flags (list_ascii_of_string flags).

Definition literal_expand (glob : string) (o : obj) : option parsed * obj :=
  (Some (if starts_with_bang glob then Parsed (slice1 glob) true
         else Parsed glob false), o).

Fixpoint slashes (s : string) : string :=
  match s with
  | EmptyString => EmptyString
  | String c r => String (if Ascii.eqb c "\" then "/"%char else c) (slashes r)
  end.

Definition is_separator (c : ascii) : bool := Ascii.eqb c "/" || Ascii.eqb c "\".

(** The run of characters after the last separator. *)
Fixpoint last_segment (s cur : string) : string :=
  match s with
  | EmptyString => cur
  | String c r =>
      if is_separator c then last_segment r EmptyString
      else last_segment r (cur +:+ String c EmptyString)
  end.

Definition basename (s : string) : option string :=
  let b := last_segment s EmptyString in
  if String.eqb b "" then None else Some b.

#[export] Instance env : Collaborators := {|
  expand := literal_expand;
  unixify := λ s o, (slashes s, o);
  regex_valid := literal_valid;
  regex_exec := literal_exec;
  fileRe_exec := basename
|}.

(** The state of a freshly loaded module whose caller holds the options
    objects [h]. *)
Definition initial (h : gmap loc obj) : state := State None None None h ∅ [].

(** The caller's options object, and the module before its first use,
    with that object holding the properties [o]. *)
Definition opts : loc := 1%positive.
Definition loaded (o : obj) : state := initial {[ opts := o ]}.


End Reference.

(** ** Specification-level definitions

    Pure readings of the loops above, against which the stateful code is
    compared. *)
Section Readings.
Context `{Collaborators}.

(** The normalised form of a path or glob. *)
Definition normal (f : string) (o : obj) : string := (unixify f o).1.

(** The flags [makeRe] gives to the [RegExp] constructor when the
    options read [o] throughout. *)
Definition regex_flags (o : obj) : string :=
  if truthy (get o "nocase") then flags_of o +:+ "i" else flags_of o.

(** Lines 236 to 243 of [makeRe]: what running the translator on [glob]
    gives, with [flags] read at the start of the call and the options
    reading [o] when the translator is called: the new [RegExp] or the
    failure, and the properties the options object is left with. *)
Definition compile (flags : string) (glob : string) (o : obj) : outcome RegExp * obj :=
  let flags := if truthy (get o "nocase") then flags +:+ "i" else flags in
  match expand glob o with
  | (None, o1) => (Throw TranslatorError, o1)
  | (Some p, o1) =>
      let negated := negated_of o1 (parsed_negated p) in
      let src := wrapGlob (parsed_glob p) negated in
      (if regex_valid src flags then Ok (mkRegExp src flags 0) else Throw SyntaxError,
       <["negated" := negated]> o1)
  end.

(** A negated matcher: its source is the negative anchoring template. *)
Definition negated_matcher (re : RegExp) : Prop :=
  ∃ f, source re = "^(?!^(?:" +:+ f +:+ ")$).*$".


(** [re.test(str)] for a [RegExp] without the flags [g] and [y]. *)
Definition matches (re : RegExp) (str : string) : bool :=
  match regex_exec (source re) (flags re) 0 str with
  | Some _ => true
  | None => false
  end.

(** The object at [l] is a matcher without the flags [g] and [y]. *)
Definition stateless_at (l : loc) (s : state) : Prop :=
  ∃ re, regexps s !! l = Some re ∧ stateful (flags re) = false.

(** The matcher a call has returned, if it has, is without the flags [g]
    and [y]. *)
Definition matcher_stateless (r : outcome loc * state) : Prop :=
  ∀ l, r.1 = Ok l → stateless_at l r.2.

(** [isMatch] for an already compiled pattern without [g] and [y], under
    the options [o]. *)
Definition path_test (re : RegExp) (o : obj) (fp : string) : outcome bool :=
  if truthy (get o "matchBase") then
    match fileRe_exec fp with
    | None => Throw TypeError
    | Some m0 => Ok (matches re m0 || matches re fp)
    end
  else Ok (matches re fp).

(** The paths on which [path_test] answers [true]. *)
Definition passes (re : RegExp) (o : obj) (fp : string) : bool :=
  match path_test re o fp with
  | Ok true => true
  | _ => false
  end.

(** The paths on which [path_test] throws. *)
Definition fails (re : RegExp) (o : obj) (fp : string) : bool :=
  match path_test re o fp with
  | Throw _ => true
  | Ok _ => false
  end.

(** The normalised candidates that pass [path_test], in order. *)
Fixpoint kept (re : RegExp) (o : obj) (files : list string) : outcome (list string) :=
  match files with
  | [] => Ok []
  | file :: rest =>
      let fp := normal file o in
      match path_test re o fp with
      | Throw e => Throw e
      | Ok b =>
          match kept re o rest with
          | Throw e => Throw e
          | Ok l => Ok (if b then fp :: l else l)
          end
      end
  end.

(** Whether [match] negates: [opts.negate] is read only under
    [nonegate: true]; otherwise the leading [!] of the pattern decides. *)
Definition negation (o : obj) (pattern : string) : bool :=
  if bool_decide (get o "nonegate" = VBool true) then truthy (get o "negate")
  else starts_with_bang pattern.

(** The glob [match] hands to [makeRe]. *)
Definition match_glob (o : obj) (pattern : string) : string :=
  if bool_decide (get o "nonegate" = VBool true) then pattern
  else if starts_with_bang pattern then slice1 pattern else pattern.

(** What [match] returns from the compiled pattern and the paths its
    loop has collected. *)
Definition match_answer (negate : bool) (o : obj) (re : loc)
    (files res : list string) : match_result :=
  if negate then MFiles (diff files res)
  else if truthy (get o "nonull") && bool_decide (res = []) then MPattern re
  else MFiles res.

(** The glob the resolver hands to [match] for a pattern of its list, and
    the accumulator the output goes to ([true]: the negative one). *)
Definition list_negated (pattern : string) : bool := starts_with_bang pattern.
Definition list_glob (pattern : string) : string :=
  if starts_with_bang pattern then slice1 pattern else pattern.

(** The outputs of [match], one per pattern of the list and in the order
    of the list, each tagged with the accumulator it belongs to. *)
Fixpoint pattern_outputs (files : list string) (opts : loc) (patterns : list string)
  : M (list (bool * match_result)) :=
  λ s,
  match patterns with
  | [] => (Ok [], s)
  | p :: rest =>
      match match_ (FCand (CArray files)) (list_glob p) (Some opts) s with
      | (Throw e, s) => (Throw e, s)
      | (Ok m, s) =>
          match pattern_outputs files opts rest s with
          | (Throw e, s) => (Throw e, s)
          | (Ok ms, s) => (Ok ((list_negated p, m) :: ms), s)
          end
      end
  end.

(** The accumulator of a polarity: the outputs of that polarity, appended
    in order. *)
Definition accumulator (negative : bool) (outs : list (bool * match_result))
  : list string :=
  concat (map (λ bm, if Bool.eqb bm.1 negative then elements bm.2 else []) outs).

(** The cache has been populated: all three module variables are set. *)
Definition populated (s : state) : bool :=
  bool_decide (is_Some (globRe s)) && bool_decide (is_Some (cache s))
  && bool_decide (is_Some (optsCache s)).

(** A series of later calls to [makeRe], with any globs and any options. *)
Definition run_calls (calls : list (string * option loc)) (s : state) : state :=
  fold_left (λ s c, (makeRe c.1 c.2 s).2) calls s.

(** The options object of a call, as the callee sees it on entry. *)
Definition entry_options (options : option loc) (s : state) : obj :=
  deref (or_new options s).2 (or_new options s).1.

(** An absent or empty argument of the resolver. *)
Definition empty_candidates (files : option candidates) : bool :=
  match files with
  | None | Some (CString EmptyString) | Some (CArray []) => true
  | _ => false
  end.

Definition empty_patterns (patterns : option patterns_arg) : bool :=
  match patterns with
  | None | Some (PString EmptyString) | Some (PArray []) => true
  | _ => false
  end.

(** The arguments with which the resolver, although it has no candidate,
    still compiles: an empty array of candidates (which is truthy) and a
    non-empty pattern or list of patterns. *)
Definition compiles_for_nothing (files : option candidates)
    (patterns : option patterns_arg) : bool :=
  match files, patterns with
  | Some (CArray []), Some (PString p) => negb (String.eqb p "")
  | Some (CArray []), Some (PArray (_ :: _)) => true
  | _, _ => false
  end.

(** The case in which the resolver hands back the compiled pattern: an
    array without candidates, a single non-empty pattern, no negation
    (read from the options [o] of the entry) and [nonull] set (read from
    the options [o'] after the compilation). *)
Definition nonull_sentinel (files : option candidates)
    (patterns : option patterns_arg) (o o' : obj) : bool :=
  match files, patterns with
  | Some (CArray []), Some (PString p) =>
      negb (String.eqb p "") && truthy (get o' "nonull") && negb (negation o p)
  | _, _ => false
  end.

(** The options object [o] once a compilation that does not switch
    [negated] on has stored it. *)
Definition settled (o : obj) : obj := <["negated" := negated_of o false]> o.

(** A glob whose compilation does not depend on what was compiled
    before it: normalisation leaves it as it is, neither the normaliser
    nor the translator writes to the options when it is handed this glob,
    the translator gives the same output whether or not [negated] has
    been stored in the options, and it does not report a negation unless
    [negated] already reads true. *)
Definition steady (o : obj) (glob : string) : Prop :=
  unixify glob o = (glob, o)
  ∧ unixify glob (settled o) = (glob, settled o)
  ∧ (expand glob o).2 = o
  ∧ (expand glob (settled o)).2 = settled o
  ∧ (expand glob (settled o)).1 = (expand glob o).1
  ∧ (truthy (get o "negated") = true
     ∨ ∀ p, (expand glob o).1 = Some p → parsed_negated p = false).

(** The normaliser writes nothing to the options [o] when it is handed
    one of [files]. *)
Definition quiet (o : obj) (files : list string) : Prop :=
  Forall (λ f, (unixify f o).2 = o) files.

(** Normalising [files] neither depends on [negated] having been stored
    in the options [o] nor writes to them. *)
Definition normal_anyway (o : obj) (files : list string) : Prop :=
  Forall (λ f, unixify f o = (normal f (settled o), o)) files.

(** What a steady glob compiles to under the options [o]. *)
Definition steady_regexp (o : obj) (glob : string) : outcome RegExp :=
  (compile (flags_of o) glob (settled o)).1.

(** The cache holds a matcher that a call with the options [o] can be
    handed: the one these options compile for the cached glob. *)
Definition cache_fits (o : obj) (s : state) : Prop :=
  ∃ g l re, cache s = Some g ∧ globRe s = Some l ∧ regexps s !! l = Some re
            ∧ steady_regexp o g = Ok re.

(** The cache at the start of a call that compiles [globs] with options
    that read [o] and tests [files]: no matcher is cached, or the cached
    glob is none of [globs], or the cached matcher is the one these
    options compile for the cached glob and normalising the candidates
    does not depend on [negated] having been stored (as when it is stored
    already). *)
Definition cache_harmless (o : obj) (globs files : list string) (s : state) : Prop :=
  globRe s = None
  ∨ (∃ c, cache s = Some c ∧ c ∉ globs)
  ∨ (cache_fits o s ∧ normal_anyway o files).

(** The cache fits the options object [r], of entry content [o], in
    which [negated] may have been stored since; and where it has not, the
    normal form of the candidates does not depend on it. *)
Definition fits_state (r : loc) (o : obj) (files : list string) (s : state) : Prop :=
  (deref s r = o ∨ deref s r = settled o)
  ∧ cache_fits o s
  ∧ (deref s r = o → normal_anyway o files).

(** The cache holds no matcher that a call with the glob [g] and the
    options object [r], of content [o], could be handed. *)
Definition no_match_for (r : loc) (o : obj) (globs : list string) (s : state) : Prop :=
  deref s r = o
  ∧ (globRe s = None ∨ ∃ c, cache s = Some c ∧ c ∉ globs).

(** The globs the resolver compiles for a list of patterns. *)
Definition list_globs (o : obj) (P : list string) : list string :=
  map (λ p, match_glob o (list_glob p)) P.


(** The elements of the output of [match] on the pattern [p] when every
    compilation is steady and no test moves [lastIndex]. *)
Definition steady_match (o : obj) (files : list string) (p : string)
  : outcome match_result :=
  match steady_regexp o (match_glob o p) with
  | Throw e => Throw e
  | Ok re =>
      match kept re (settled o) files with
      | Throw e => Throw e
      | Ok res => Ok (MFiles (if negation o p then diff files res else res))
      end
  end.

(** The same for the resolver's calls to [match]. *)
Fixpoint steady_outputs (o : obj) (files patterns : list string)
  : outcome (list (bool * match_result)) :=
  match patterns with
  | [] => Ok []
  | p :: rest =>
      match steady_match o files (list_glob p) with
      | Throw e => Throw e
      | Ok m =>
          match steady_outputs o files rest with
          | Throw e => Throw e
          | Ok ms => Ok ((list_negated p, m) :: ms)
          end
      end
  end.

(** A result with the compiled pattern of [nonull] read as an array: it
    has no element. *)
Definition as_array (r : outcome match_result) : outcome match_result :=
  match r with
  | Ok m => Ok (MFiles (elements m))
  | Throw e => Throw e
  end.

Definition outputs_as_arrays (r : outcome (list (bool * match_result)))
  : outcome (list (bool * match_result)) :=
  match r with
  | Ok outs => Ok (map (λ bm, (bm.1, MFiles (elements bm.2))) outs)
  | Throw e => Throw e
  end.

(** Two states that differ at most in the [lastIndex] of [RegExp]
    objects. *)
Definition same_but_lastIndex (s s' : state) : Prop :=
  globRe s' = globRe s ∧ cache s' = cache s ∧ optsCache s' = optsCache s
  ∧ heap s' = heap s ∧ translated s' = translated s
  ∧ ∀ l, (λ re, (source re, flags re)) <$> regexps s' !! l
         = (λ re, (source re, flags re)) <$> regexps s !! l.

(** The ways a call [makeRe(glob, r)] can go: it returns the cached
    matcher and leaves the options alone, or it runs the translator, on
    the glob as given or on its normalised form, and ends as [compile]
    says: with a new [RegExp] object that it caches, or with a failure
    and no matcher in the cache. *)
Inductive makeRe_case (glob : string) (r : loc) (s : state)
  : outcome loc * state → Prop :=
| makeRe_hit re :
    equal (deref s (default r (optsCache s))) (deref s r) = true →
    default glob (cache s) = glob →
    globRe s = Some re →
    makeRe_case glob r s
      (Ok re, State (Some re) (Some glob) (Some (default r (optsCache s)))
                    (heap s) (regexps s) (translated s))
| makeRe_miss g om out s' :
    let o := deref s r in
    let agree := equal (deref s (default r (optsCache s))) o in
    ((g, om) = (glob, o)
     ∧ (agree = false ∨ (default glob (cache s) = glob ∧ globRe s = None)))
    ∨ ((g, om) = unixify glob o
       ∧ agree = true ∧ ∃ c, cache s = Some c ∧ c ≠ glob) →
    cache s' = Some g →
    optsCache s' = Some (default r (optsCache s)) →
    translated s' = g :: translated s →
    deref s' r = (compile (flags_of o) g om).2 →
    (∀ r', r' ≠ r → heap s' !! r' = heap s !! r') →
    match (compile (flags_of o) g om).1, out with
    | Ok re, Ok l =>
        globRe s' = Some l ∧ l = fresh (dom (regexps s))
        ∧ regexps s' = <[l := re]> (regexps s)
    | Throw e, Throw e' => e = e' ∧ globRe s' = None ∧ regexps s' = regexps s
    | _, _ => False
    end →
    makeRe_case glob r s (out, s').

(** A call has ended as the compilation [c] says: with the new matcher
    in the cache, or with the failure and no matcher in the cache. *)
Definition built (c : outcome RegExp) (r : outcome loc * state) : Prop :=
  match c, r.1 with
  | Ok re, Ok l => regexps r.2 !! l = Some re ∧ globRe r.2 = Some l
  | Throw e, Throw e' => e = e' ∧ globRe r.2 = None
  | _, _ => False
  end.

(** An argument of the resolver is absent or the empty string: the
    cases in which it returns at once. *)
Definition returns_at_once (files : option candidates)
    (patterns : option patterns_arg) : bool :=
  match files, patterns with
  | Some c, Some p => falsy_candidates c || falsy_patterns p
  | _, _ => true
  end.

(** The number of patterns the resolver is given. *)
Definition pattern_count (patterns : option patterns_arg) : nat :=
  match patterns with
  | None => 0
  | Some (PString _) => 1
  | Some (PArray P) => length P
  end.

(** The result of a computation, or [d] when it throws. *)
Definition returned {A : Type} (d : A) (r : outcome A) : A :=
  match r with
  | Ok a => a
  | Throw _ => d
  end.

End Readings.

(** * General facts *)

Lemma elem_of_diff (x : string) (a b : list string) :
  x ∈ diff a b ↔ x ∈ a ∧ x ∉ b.
Proof.
  unfold diff. rewrite !list_elem_of_In, filter_In, <- !list_elem_of_In.
  by rewrite bool_decide_eq_true.
Qed.

Lemma equal_spec (a b : obj) :
  equal a b = true ↔ ∀ k v, b !! k = Some v → a !! k = Some v.
Proof.
  unfold equal. rewrite forallb_forall. split.
  - intros Hall k v Hk.
    specialize (Hall (k, v)). simpl in Hall.
    eapply bool_decide_eq_true_1, Hall, list_elem_of_In, elem_of_map_to_list, Hk.
  - intros Hsub [k v] Hin. apply bool_decide_eq_true_2. simpl.
    apply Hsub, elem_of_map_to_list, list_elem_of_In, Hin.
Qed.

Lemma equal_refl (a : obj) : equal a a = true.
Proof. by apply equal_spec. Qed.

Lemma equal_empty (a : obj) : equal a ∅ = true.
Proof. apply equal_spec. intros k v Hk. by rewrite lookup_empty in Hk. Qed.

Lemma get_insert_ne (o : obj) (k k' : string) (v : value) :
  k ≠ k' → get (<[k := v]> o) k' = get o k'.
Proof. intros Hne. unfold get. by rewrite lookup_insert_ne. Qed.

Lemma get_insert_eq (o : obj) (k : string) (v : value) :
  get (<[k := v]> o) k = v.
Proof. unfold get. by rewrite lookup_insert_eq. Qed.

Lemma negated_of_truthy (o : obj) (b : bool) :
  truthy (get o "negated") = true → negated_of o b = get o "negated".
Proof. unfold negated_of. by intros ->. Qed.


(** ** The store of options objects *)

Lemma deref_store_eq (r : loc) (o : obj) (s : state) : deref (store r o s) r = o.
Proof. unfold deref, store. cbn. by rewrite lookup_insert_eq. Qed.

Lemma heap_store_ne (r r' : loc) (o : obj) (s : state) :
  r' ≠ r → heap (store r o s) !! r' = heap s !! r'.
Proof. intros Hne. unfold store. cbn. by rewrite lookup_insert_ne. Qed.

Lemma deref_write_back_eq (r : loc) (o : obj) (s : state) :
  deref (write_back r o s) r = o.
Proof. unfold write_back. case_decide; [done|apply deref_store_eq]. Qed.

Lemma heap_write_back_ne (r r' : loc) (o : obj) (s : state) :
  r' ≠ r → heap (write_back r o s) !! r' = heap s !! r'.
Proof. intros Hne. unfold write_back. case_decide; [done|by apply heap_store_ne]. Qed.

Lemma write_back_same (r : loc) (s : state) : write_back r (deref s r) s = s.
Proof. unfold write_back. by rewrite decide_True. Qed.

Lemma write_back_vars (r : loc) (o : obj) (s : state) :
  globRe (write_back r o s) = globRe s ∧ cache (write_back r o s) = cache s
  ∧ optsCache (write_back r o s) = optsCache s
  ∧ regexps (write_back r o s) = regexps s
  ∧ translated (write_back r o s) = translated s.
Proof. unfold write_back. by case_decide. Qed.

Lemma deref_or_new (options : option loc) (s : state) (r : loc) :
  deref (or_new options s).2 r = deref s r.
Proof.
  destruct options as [r0|]; [done|]. unfold deref. simpl.
  destruct (decide (fresh (dom (heap s)) = r)) as [<-|Hne].
  - rewrite lookup_insert_eq.
    by rewrite (not_elem_of_dom_1 (heap s) _ (is_fresh (dom (heap s)))).
  - by rewrite lookup_insert_ne.
Qed.

Lemma or_new_vars (options : option loc) (s : state) :
  globRe (or_new options s).2 = globRe s ∧ cache (or_new options s).2 = cache s
  ∧ optsCache (or_new options s).2 = optsCache s
  ∧ regexps (or_new options s).2 = regexps s
  ∧ translated (or_new options s).2 = translated s.
Proof. by destruct options. Qed.

Lemma deref_eq_heap (s s' : state) (r : loc) :
  heap s' !! r = heap s !! r → deref s' r = deref s r.
Proof. unfold deref. by intros ->. Qed.

Lemma append_assoc (a b c : string) : (a +:+ b) +:+ c = a +:+ b +:+ c.
Proof.
  induction a as [|x a IH]; [done|].
  change (String x ((a +:+ b) +:+ c) = String x (a +:+ b +:+ c)).
  by rewrite IH.
Qed.

Lemma wrapGlob_truthy (f : string) (v : value) :
  truthy v = true → wrapGlob f v = "^(?!^(?:" +:+ f +:+ ")$).*$".
Proof.
  intros Hv. unfold wrapGlob. rewrite Hv.
  by rewrite !append_assoc.
Qed.

Lemma wrapGlob_falsy (f : string) (v : value) :
  truthy v = false → wrapGlob f v = "^(?:" +:+ f +:+ ")$".
Proof. intros Hv. unfold wrapGlob. by rewrite Hv. Qed.

Lemma templates_apart (f f' : string) :
  "^(?:" +:+ f +:+ ")$" ≠ "^(?!^(?:" +:+ f' +:+ ")$).*$".
Proof. discriminate. Qed.

Section Facts.
Context `{Collaborators}.

(** ** [test] *)

Lemma test_same_but_lastIndex (re : loc) (str : string) (s : state) :
  same_but_lastIndex s (test re str s).2.
Proof.
  unfold test, same_but_lastIndex.
  destruct (regexps s !! re) as [r|] eqn:Hr; [|done].
  destruct (stateful (flags r)).
  - destruct (regex_exec _ _ _ _); cbn; repeat split; try done;
      intros l; (destruct (decide (l = re)) as [->|Hne];
        [by rewrite lookup_insert_eq, Hr|by rewrite lookup_insert_ne]).
  - by destruct (regex_exec _ _ _ _).
Qed.

Lemma test_stateless (re : loc) (r : RegExp) (str : string) (s : state) :
  regexps s !! re = Some r → stateful (flags r) = false →
  test re str s = (matches r str, s).
Proof.
  intros Hr Hst. unfold test, matches. rewrite Hr, Hst.
  by destruct (regex_exec _ _ _ _).
Qed.

Lemma same_but_lastIndex_refl (s : state) : same_but_lastIndex s s.
Proof. by unfold same_but_lastIndex. Qed.

Lemma same_but_lastIndex_trans (s1 s2 s3 : state) :
  same_but_lastIndex s1 s2 → same_but_lastIndex s2 s3 → same_but_lastIndex s1 s3.
Proof.
  unfold same_but_lastIndex.
  intros (? & ? & ? & ? & ? & H12) (? & ? & ? & ? & ? & H23).
  repeat split; try congruence.
Qed.

Lemma same_but_lastIndex_deref (s s' : state) (r : loc) :
  same_but_lastIndex s s' → deref s' r = deref s r.
Proof. intros (_ & _ & _ & Hh & _). unfold deref. by rewrite Hh. Qed.

Lemma same_but_lastIndex_stateless (s s' : state) (l : loc) :
  same_but_lastIndex s s' → stateless_at l s → stateless_at l s'.
Proof.
  intros (_ & _ & _ & _ & _ & Hre) (re & Hl & Hst).
  specialize (Hre l). rewrite Hl in Hre. cbn in Hre.
  destruct (regexps s' !! l) as [re'|] eqn:Hl'; [|done].
  cbn in Hre. injection Hre as _ Hfl. exists re'. split; [done|]. by rewrite Hfl.
Qed.

(** ** [makeRe] *)

Lemma makeRe_or_new (glob : string) (options : option loc) (s : state) :
  makeRe glob options s =
  makeRe glob (Some (or_new options s).1) (or_new options s).2.
Proof. by destruct options. Qed.

Lemma makeRe_finish (P : outcome loc * state → Prop) (r : loc) (g : string)
    (c : string) (oc : loc) (fl : string) (om : obj) (s0 s : state) :
  deref s r = om →
  (∀ r', r' ≠ r → heap s !! r' = heap s0 !! r') →
  regexps s = regexps s0 → translated s = translated s0 →
  (∀ out s',
     cache s' = Some c → optsCache s' = Some oc →
     translated s' = g :: translated s0 →
     deref s' r = (compile fl g om).2 →
     (∀ r', r' ≠ r → heap s' !! r' = heap s0 !! r') →
     match (compile fl g om).1, out with
     | Ok re, Ok l =>
         globRe s' = Some l ∧ l = fresh (dom (regexps s0))
         ∧ regexps s' = <[l := re]> (regexps s0)
     | Throw e, Throw e' => e = e' ∧ globRe s' = None ∧ regexps s' = regexps s0
     | _, _ => False
     end → P (out, s')) →
  P (let flags := if truthy (get (deref s r) "nocase") then fl +:+ "i" else fl in
     let '(parsed, o') := expand g (deref s r) in
     let s := write_back r o' s in
     let s := State None (Some c) (Some oc) (heap s) (regexps s) (g :: translated s) in
     match parsed with
     | None => (Throw TranslatorError, s)
     | Some parsed =>
         let negated := negated_of (deref s r) (parsed_negated parsed) in
         let s := store r (<["negated" := negated]> (deref s r)) s in
         let src := wrapGlob (parsed_glob parsed) negated in
         if regex_valid src flags then
           let re := fresh (dom (regexps s)) in
           (Ok re, State (Some re) (Some c) (Some oc) (heap s)
                         (<[re := mkRegExp src flags 0]> (regexps s)) (translated s))
         else (Throw SyntaxError, s)
     end).
Proof.
  intros Hom Hheap Hre Htr HP. cbv zeta. rewrite Hom.
  pose proof (write_back_vars r (expand g om).2 s) as (_ & _ & _ & Hwre & Hwtr).
  pose proof (deref_write_back_eq r (expand g om).2 s) as Hwd.
  pose proof (λ r' Hne, heap_write_back_ne r r' (expand g om).2 s Hne) as Hwh.
  unfold compile in HP. revert HP.
  destruct (expand g om) as [[p|] o1] eqn:Hexp; cbn [fst snd] in *; intros HP.
  - set (s1 := State None (Some c) (Some oc) (heap (write_back r o1 s))
                     (regexps (write_back r o1 s)) (g :: translated (write_back r o1 s))).
    assert (deref s1 r = o1) as Hd1 by exact Hwd.
    rewrite Hd1.
    destruct (regex_valid _ _) eqn:Hvalid.
    + apply HP; cbn.
      * done.
      * done.
      * by rewrite Hwtr, Htr.
      * unfold deref. cbn. by rewrite lookup_insert_eq.
      * intros r' Hne. rewrite lookup_insert_ne by done. rewrite Hwh by done.
        by apply Hheap.
      * by rewrite Hwre, Hre.
    + apply HP; cbn.
      * done.
      * done.
      * by rewrite Hwtr, Htr.
      * unfold deref. cbn. by rewrite lookup_insert_eq.
      * intros r' Hne. rewrite lookup_insert_ne by done. rewrite Hwh by done.
        by apply Hheap.
      * by rewrite Hwre, Hre.
  - apply HP; cbn.
    + done.
    + done.
    + by rewrite Hwtr, Htr.
    + done.
    + intros r' Hne. rewrite Hwh by done. by apply Hheap.
    + by rewrite Hwre, Hre.
Qed.

Lemma makeRe_cases (glob : string) (r : loc) (s : state) :
  makeRe_case glob r s (makeRe glob (Some r) s).
Proof.
  unfold makeRe. cbn [or_new].
  destruct (equal _ _) eqn:Heq.
  - case_bool_decide as Hc.
    + destruct (globRe s) as [re|] eqn:Hg.
      * rewrite Hc. by apply makeRe_hit.
      * rewrite Hc.
        apply (makeRe_finish (makeRe_case glob r s) r glob glob (default r (optsCache s))
                 (flags_of (deref s r)) (deref s r) s s); try done.
        intros out s' ? ? ? ? ? ?.
        eapply (makeRe_miss glob r s glob (deref s r)); try done.
        left. split; [done|]. right. by rewrite Hg.
    + destruct (unixify glob (deref s r)) as [g om] eqn:Hu.
      pose proof (write_back_vars r om s) as (_ & _ & _ & Hwre & Hwtr).
      apply (makeRe_finish (makeRe_case glob r s) r g g (default r (optsCache s))
               (flags_of (deref s r)) om s (write_back r om s)); try done.
      * apply deref_write_back_eq.
      * intros r' Hne. by apply heap_write_back_ne.
      * intros out s' ? ? ? ? ? ?.
        eapply (makeRe_miss glob r s g om); try done.
        right. split; [done|]. split; [done|].
        destruct (cache s) as [c|]; [by exists c|done].
  - cbn [default from_option id]. rewrite bool_decide_eq_true_2 by done.
    apply (makeRe_finish (makeRe_case glob r s) r glob glob (default r (optsCache s))
             (flags_of (deref s r)) (deref s r) s s); try done.
    intros out s' ? ? ? ? ? ?.
    eapply (makeRe_miss glob r s glob (deref s r)); try done.
    left. split; [done|]. by left.
Qed.

Lemma makeRe_optsCache (glob : string) (options : option loc) (s : state) :
  optsCache (makeRe glob options s).2
  = Some (default (or_new options s).1 (optsCache s)).
Proof.
  rewrite makeRe_or_new.
  assert (optsCache (or_new options s).2 = optsCache s) as <- by by destruct options.
  by destruct (makeRe_cases glob (or_new options s).1 (or_new options s).2).
Qed.

(** [makeRe] writes to no object but the options of the call. *)
Lemma makeRe_other_objects (glob : string) (r r' : loc) (s : state) :
  r' ≠ r → heap (makeRe glob (Some r) s).2 !! r' = heap s !! r'.
Proof.
  intros Hne.
  destruct (makeRe_cases glob r s) as [re _ _ _|g om out s' o agree _ _ _ _ _ Hh _];
    [done|]. by apply Hh.
Qed.

Lemma makeRe_translated_le (glob : string) (options : option loc) (s : state) :
  (length (translated (makeRe glob options s).2) ≤ S (length (translated s)))%nat.
Proof.
  rewrite makeRe_or_new.
  assert (translated (or_new options s).2 = translated s) as <- by by destruct options.
  destruct (makeRe_cases glob (or_new options s).1 (or_new options s).2)
    as [re _ _ _|g om out s' o agree _ _ _ Ht _ _ _]; cbn; [lia|].
  rewrite Ht. cbn. lia.
Qed.

(** The [RegExp] objects that exist before a call are left alone by it. *)
Lemma makeRe_regexps_old (glob : string) (options : option loc) (s : state) (l : loc) :
  is_Some (regexps s !! l) →
  regexps (makeRe glob options s).2 !! l = regexps s !! l.
Proof.
  intros Hl. rewrite makeRe_or_new.
  assert (regexps (or_new options s).2 = regexps s) as Hre by by destruct options.
  rewrite <- Hre in *.
  destruct (makeRe_cases glob (or_new options s).1 (or_new options s).2)
    as [re _ _ _|g om out s' o agree _ _ _ _ _ _ Hout]; [done|].
  cbn [snd]. destruct (compile _ g om).1, out; try done.
  - destruct Hout as (_ & -> & ->). rewrite lookup_insert_ne; [done|].
    intros <-. apply elem_of_dom in Hl. by apply is_fresh in Hl.
  - by destruct Hout as (_ & _ & ->).
Qed.

(** ** [isMatch] on a compiled pattern *)

Lemma isMatch_compiled_same (fp : string) (re r : loc) (s : state) :
  same_but_lastIndex s (isMatch fp (inl re) (Some r) s).2.
Proof.
  unfold isMatch. cbn [to_regexp].
  destruct (truthy _).
  - destruct (fileRe_exec fp) as [m0|]; [|apply same_but_lastIndex_refl].
    pose proof (test_same_but_lastIndex re m0 s) as H1.
    destruct (test re m0 s) as [[|] s1]; [done|].
    pose proof (test_same_but_lastIndex re fp s1) as H2.
    destruct (test re fp s1) as [b s2]. cbn [snd] in *.
    by eapply same_but_lastIndex_trans.
  - pose proof (test_same_but_lastIndex re fp s) as H1.
    by destruct (test re fp s) as [b s1].
Qed.

Lemma isMatch_compiled_throw (fp : string) (re r : loc) (s : state) (e : error) :
  (isMatch fp (inl re) (Some r) s).1 = Throw e →
  e = TypeError ∧ truthy (get (deref s r) "matchBase") = true
  ∧ fileRe_exec fp = None ∧ (isMatch fp (inl re) (Some r) s).2 = s.
Proof.
  unfold isMatch. cbn [to_regexp].
  destruct (truthy _).
  - destruct (fileRe_exec fp) as [m0|]; [|by intros [= <-]].
    destruct (test re m0 s) as [[|] s1]; [done|].
    by destruct (test re fp s1) as [b s2].
  - by destruct (test re fp s) as [b s1].
Qed.

Lemma isMatch_stateless (fp : string) (re r : loc) (rx : RegExp) (s : state) :
  regexps s !! re = Some rx → stateful (flags rx) = false →
  isMatch fp (inl re) (Some r) s = (path_test rx (deref s r) fp, s).
Proof.
  intros Hre Hst. unfold isMatch, path_test. cbn [to_regexp].
  destruct (truthy _).
  - destruct (fileRe_exec fp) as [m0|]; [|done].
    rewrite (test_stateless re rx m0 s Hre Hst).
    destruct (matches rx m0); [done|].
    by rewrite (test_stateless re rx fp s Hre Hst).
  - by rewrite (test_stateless re rx fp s Hre Hst).
Qed.

(** On a glob, [isMatch] compiles it and goes on with the matcher. *)
Lemma isMatch_glob (fp glob : string) (options : option loc) (s : state) :
  isMatch fp (inr glob) options s =
  match makeRe glob options s with
  | (Throw e, s1) => (Throw e, s1)
  | (Ok re, s1) => isMatch fp (inl re) options s1
  end.
Proof. unfold isMatch. cbn [to_regexp]. by destruct (makeRe glob options s) as [[]]. Qed.

(** ** The loop of [match] *)

Lemma reads_only_quiet (o : obj) (files : list string) :
  reads_only unixify → quiet o files.
Proof. intros Hro. apply Forall_forall. intros f _. apply Hro. Qed.

Lemma match_loop_same_quiet (re r : loc) (files res : list string) (s : state) :
  quiet (deref s r) files →
  same_but_lastIndex s (match_loop re r files res s).2.
Proof.
  revert res s.
  induction files as [|file rest IH]; intros res s Hq; cbn [match_loop].
  - apply same_but_lastIndex_refl.
  - apply Forall_cons in Hq as [Hw Hq].
    destruct (unixify file (deref s r)) as [fp o']. cbn [snd] in Hw. subst o'.
    rewrite write_back_same.
    pose proof (isMatch_compiled_same fp re r s) as H1.
    rewrite <- (same_but_lastIndex_deref _ _ r H1) in Hq.
    destruct (isMatch fp (inl re) (Some r) s) as [[[|]|e] s1]; cbn [snd] in *.
    + eapply same_but_lastIndex_trans; [exact H1|by apply IH].
    + eapply same_but_lastIndex_trans; [exact H1|by apply IH].
    + done.
Qed.

Lemma match_loop_same (re r : loc) (files res : list string) (s : state) :
  reads_only unixify →
  same_but_lastIndex s (match_loop re r files res s).2.
Proof. intros Hro. by apply match_loop_same_quiet, reads_only_quiet. Qed.

(** The loop assigns to no module variable and does not run the
    translator. *)
Lemma match_loop_vars (re r : loc) (files res : list string) (s : state) :
  let s' := (match_loop re r files res s).2 in
  globRe s' = globRe s ∧ cache s' = cache s ∧ optsCache s' = optsCache s
  ∧ translated s' = translated s
  ∧ ∀ r', r' ≠ r → heap s' !! r' = heap s !! r'.
Proof.
  revert res s.
  induction files as [|file rest IH]; intros res s; cbn [match_loop]; [done|].
  destruct (unixify file (deref s r)) as [fp o'].
  pose proof (write_back_vars r o' s) as (Hg & Hc & Ho & _ & Ht).
  pose proof (λ r' Hne, heap_write_back_ne r r' o' s Hne) as Hh.
  pose proof (isMatch_compiled_same fp re r (write_back r o' s))
    as (Hg1 & Hc1 & Ho1 & Hh1 & Ht1 & _).
  destruct (isMatch fp (inl re) (Some r) (write_back r o' s)) as [[[|]|e] s1];
    cbn [snd] in *.
  - destruct (IH (res ++ [fp])%list s1) as (? & ? & ? & ? & Hh2).
    repeat split; try congruence.
    intros r' Hne. by rewrite Hh2, Hh1, Hh.
  - destruct (IH res s1) as (? & ? & ? & ? & Hh2).
    repeat split; try congruence.
    intros r' Hne. by rewrite Hh2, Hh1, Hh.
  - repeat split; try congruence. intros r' Hne. by rewrite Hh1, Hh.
Qed.

Lemma match_loop_throw (re r : loc) (files res : list string) (s : state) (e : error) :
  (match_loop re r files res s).1 = Throw e →
  e = TypeError
  ∧ truthy (get (deref (match_loop re r files res s).2 r) "matchBase") = true.
Proof.
  revert res s.
  induction files as [|file rest IH]; intros res s; cbn [match_loop]; [done|].
  destruct (unixify file (deref s r)) as [fp o'].
  pose proof (isMatch_compiled_throw fp re r (write_back r o' s)) as Hthrow.
  destruct (isMatch fp (inl re) (Some r) (write_back r o' s)) as [[[|]|e'] s1];
    cbn [fst snd] in *.
  - apply IH.
  - apply IH.
  - intros [= <-]. destruct (Hthrow e' eq_refl) as (-> & Hb & _ & ->). done.
Qed.

Lemma match_loop_kept_quiet (re r : loc) (rx : RegExp) (files res : list string)
    (s : state) :
  quiet (deref s r) files →
  regexps s !! re = Some rx → stateful (flags rx) = false →
  match_loop re r files res s =
  (match kept rx (deref s r) files with
   | Ok l => Ok (res ++ l)%list
   | Throw e => Throw e
   end, s).
Proof.
  intros Hq Hre Hst. revert res.
  induction files as [|file rest IH]; intros res; cbn [match_loop kept].
  - by rewrite app_nil_r.
  - apply Forall_cons in Hq as [Hw Hq]. specialize (IH Hq).
    unfold normal.
    destruct (unixify file (deref s r)) as [fp o']. cbn [fst snd] in *. subst o'.
    rewrite write_back_same, (isMatch_stateless fp re r rx s Hre Hst).
    destruct (path_test _ _ _) as [[|]|e]; [| |done].
    + rewrite IH. destruct (kept _ _ rest); [|done].
      by rewrite <- app_assoc.
    + rewrite IH. by destruct (kept _ _ rest).
Qed.

Lemma match_loop_kept (re r : loc) (rx : RegExp) (files res : list string)
    (s : state) :
  reads_only unixify →
  regexps s !! re = Some rx → stateful (flags rx) = false →
  match_loop re r files res s =
  (match kept rx (deref s r) files with
   | Ok l => Ok (res ++ l)%list
   | Throw e => Throw e
   end, s).
Proof. intros Hro. by apply match_loop_kept_quiet, reads_only_quiet. Qed.

(** What the loop collects is, in order, a part of the normalised
    candidates. *)
Lemma match_loop_sublist (re r : loc) (files res l : list string) (s : state) :
  reads_only unixify →
  (match_loop re r files res s).1 = Ok l →
  ∃ l', l = (res ++ l')%list
        ∧ l' `sublist_of` map (λ f, normal f (deref s r)) files.
Proof.
  intros Hro. revert res s.
  induction files as [|file rest IH]; intros res s; cbn [match_loop map].
  - intros [= <-]. exists []. by rewrite app_nil_r.
  - unfold normal at 1. pose proof (Hro file (deref s r)) as Hw.
    destruct (unixify file (deref s r)) as [fp o']. cbn [fst snd] in *. subst o'.
    rewrite write_back_same.
    pose proof (isMatch_compiled_same fp re r s) as Hsame.
    destruct (isMatch fp (inl re) (Some r) s) as [[[|]|e] s1]; cbn [snd] in *;
      [| |done].
    + intros Hl. destruct (IH _ _ Hl) as (l' & -> & Hsub).
      rewrite (same_but_lastIndex_deref _ _ _ Hsame) in Hsub.
      exists (fp :: l'). split; [by rewrite <- app_assoc|]. by apply sublist_skip.
    + intros Hl. destruct (IH _ _ Hl) as (l' & -> & Hsub).
      rewrite (same_but_lastIndex_deref _ _ _ Hsame) in Hsub.
      exists l'. split; [done|]. by apply sublist_cons.
Qed.

(** ** [match] *)

Lemma match_unfold (c : candidates) (p : string) (options : option loc) (s : state) :
  match_ (FCand c) p options s =
  let '(r, s0) := or_new options s in
  let o := deref s0 r in
  match makeRe (match_glob o p) (Some r) s0 with
  | (Throw e, s1) => (Throw e, s1)
  | (Ok re, s1) =>
      match match_loop re r (arrayify c) [] s1 with
      | (Throw e, s2) => (Throw e, s2)
      | (Ok res, s2) =>
          (Ok (match_answer (negation o p) (deref s2 r) re (arrayify c) res), s2)
      end
  end.
Proof.
  unfold match_, match_glob, negation, match_answer.
  destruct (or_new options s) as [r s0].
  set (o := deref s0 r).
  destruct (bool_decide (get o "nonegate" = VBool true)).
  - destruct (makeRe p (Some r) s0) as [[re|e] s1]; [|done].
    destruct (match_loop _ _ _ _ _) as [[res|e] s2]; [|done].
    by repeat case_match.
  - destruct (starts_with_bang p).
    + destruct (makeRe (slice1 p) (Some r) s0) as [[re|e] s1]; [|done].
      destruct (match_loop _ _ _ _ _) as [[res|e] s2]; [|done].
      by repeat case_match.
    + destruct (makeRe p (Some r) s0) as [[re|e] s1]; [|done].
      destruct (match_loop _ _ _ _ _) as [[res|e] s2]; [|done].
      by repeat case_match.
Qed.

End Facts.

(** * The compiler *)

Lemma get_lookup_eq (o o' : obj) (k : string) : o' !! k = o !! k → get o' k = get o k.
Proof. unfold get. by intros ->. Qed.

Section Compiler.
Context `{Collaborators}.

(** Every call leaves [cache] and [optsCache] set. *)
Lemma makeRe_cache_set (glob : string) (options : option loc) (s : state) :
  is_Some (cache (makeRe glob options s).2)
  ∧ is_Some (optsCache (makeRe glob options s).2).
Proof.
  rewrite makeRe_or_new.
  destruct (makeRe_cases glob (or_new options s).1 (or_new options s).2)
    as [re _ _ _|g om out s' o agree _ Hc Ho _ _ _ _]; cbn [snd]; [done|].
  by rewrite Hc, Ho.
Qed.

(** What a call leaves in the options object: nothing new when it
    returns the cached matcher; otherwise what [compile] leaves, on the
    glob as given or after normalisation. *)
Lemma makeRe_deref (glob : string) (r : loc) (s : state) :
  let o := deref s r in
  let s' := (makeRe glob (Some r) s).2 in
  (translated s' = translated s ∧ heap s' = heap s ∧ regexps s' = regexps s
   ∧ ∃ l, (makeRe glob (Some r) s).1 = Ok l ∧ globRe s = Some l)
  ∨ (∃ g om, translated s' = g :: translated s
             ∧ ((g, om) = (glob, o) ∨ (g, om) = unixify glob o)
             ∧ deref s' r = (compile (flags_of o) g om).2).
Proof.
  cbv zeta.
  destruct (makeRe_cases glob r s)
    as [re _ _ Hre|g om out s' o agree Hg _ _ Htr Hd _ _]; cbn [fst snd].
  - left. repeat split; try done. by exists re.
  - right. exists g, om. split; [done|]. split; [|done].
    destruct Hg as [[? _]|[? _]]; [by left|by right].
Qed.

Lemma compile_options (fl g : string) (om : obj) :
  (compile fl g om).2 =
  match (expand g om).1 with
  | Some p => <["negated" := negated_of (expand g om).2 (parsed_negated p)]> (expand g om).2
  | None => (expand g om).2
  end.
Proof. unfold compile. by destruct (expand g om) as [[p|] o1]. Qed.

Lemma compile_frame (fl g : string) (om : obj) (k : string) :
  k ≠ "negated" → (compile fl g om).2 !! k = (expand g om).2 !! k.
Proof.
  intros Hk. rewrite compile_options.
  destruct (expand g om).1; [|done]. by rewrite lookup_insert_ne.
Qed.



(** The polarity of a matcher that [compile] has built is the value of
    [negated] it has stored. *)
Lemma compile_polarity (fl g : string) (om : obj) (re : RegExp) :
  (compile fl g om).1 = Ok re →
  negated_matcher re ↔ truthy (get (compile fl g om).2 "negated") = true.
Proof.
  unfold compile, negated_matcher.
  destruct (expand g om) as [[p|] o1]; [|done]. cbn [fst snd].
  destruct (regex_valid _ _); [|done]. intros [= <-]. cbn [source].
  rewrite get_insert_eq. split.
  - intros [f' Hf']. destruct (truthy (negated_of o1 (parsed_negated p))) eqn:Ht; [done|].
    rewrite wrapGlob_falsy in Hf' by done. by apply templates_apart in Hf'.
  - intros Ht. eexists. by apply wrapGlob_truthy.
Qed.

Lemma compile_flags (fl g : string) (om : obj) (re : RegExp) :
  (compile fl g om).1 = Ok re →
  flags re = (if truthy (get om "nocase") then fl +:+ "i" else fl)
  ∧ lastIndex re = 0.
Proof.
  unfold compile. destruct (expand g om) as [[p|] o1]; [|done]. cbn [fst].
  destruct (regex_valid _ _); [|done]. by intros [= <-].
Qed.

Lemma compile_throw (fl g : string) (om : obj) (e : error) :
  (compile fl g om).1 = Throw e → e = SyntaxError ∨ e = TranslatorError.
Proof.
  unfold compile. destruct (expand g om) as [[p|] o1]; cbn [fst].
  - destruct (regex_valid _ _); [done|]. intros [= <-]. by left.
  - intros [= <-]. by right.
Qed.

(** [makeRe] fails only as [compile] does. *)
Lemma makeRe_throw (glob : string) (options : option loc) (s : state) (e : error) :
  (makeRe glob options s).1 = Throw e → e = SyntaxError ∨ e = TranslatorError.
Proof.
  rewrite makeRe_or_new.
  destruct (makeRe_cases glob (or_new options s).1 (or_new options s).2)
    as [re _ _ _|g om out s' o agree _ _ _ _ _ _ Hout]; cbn [fst]; [done|].
  intros ->. destruct (compile _ g om).1 as [re|e'] eqn:Hc; [done|].
  destruct Hout as [-> _]. by apply compile_throw in Hc.
Qed.

(** The normaliser and the translator apart, [makeRe] writes no property
    but [negated]. *)
Lemma makeRe_frame (glob : string) (options : option loc) (s : state)
    (r : loc) (k : string) :
  reads_only expand → reads_only unixify →
  k ≠ "negated" →
  deref (makeRe glob options s).2 r !! k = deref s r !! k.
Proof.
  intros Hre Hru Hk. rewrite makeRe_or_new, <- (deref_or_new options s r).
  destruct (decide ((or_new options s).1 = r)) as [<-|Hne].
  - destruct (makeRe_deref glob (or_new options s).1 (or_new options s).2)
      as [(_ & Hh & _)|(g & om & _ & Hg & ->)].
    + by rewrite (deref_eq_heap _ _ _ (f_equal (.!! _) Hh)).
    + rewrite compile_frame, Hre by done.
      destruct Hg as [[= -> ->]|Hg]; [done|].
      pose proof (Hru glob (deref (or_new options s).2 (or_new options s).1)) as Hu.
      rewrite <- Hg in Hu. cbn in Hu. by rewrite Hu.
  - apply (f_equal (.!! k)), deref_eq_heap. by apply makeRe_other_objects.
Qed.

Lemma makeRe_frame_get (glob : string) (options : option loc) (s : state)
    (r : loc) (k : string) :
  reads_only expand → reads_only unixify →
  k ≠ "negated" →
  get (deref (makeRe glob options s).2 r) k = get (deref s r) k.
Proof. intros Hre Hru Hk. apply get_lookup_eq. by apply makeRe_frame. Qed.








End Compiler.

(** * The anchoring templates *)

(** C9: the anchoring step yields exactly [^(?:f)$] for a fragment [f]
    when [negated] is false, and exactly [^(?!^(?:f)$).*$] when it is
    true. *)
Theorem wrapGlob_anchoring (f : string) (negated : bool) :
  wrapGlob f (VBool negated) =
  if negated then "^(?!^(?:" +:+ f +:+ ")$).*$" else "^(?:" +:+ f +:+ ")$".
Proof.
  destruct negated.
  - by apply wrapGlob_truthy.
  - by apply wrapGlob_falsy.
Qed.

Section Claims.
Context `{Collaborators}.

(** * The basename test of [isMatch] *)

(** C6: once [isMatch] has its compiled pattern (the one it is given,
    or the one [makeRe] returns for the glob it is given), under
    [matchBase] it fails with a [TypeError] on a path in which the
    basename pattern finds nothing, and does not go on to the full-path
    test: no test is run at all; on every other path it completes, with
    the basename test or else the full-path test. *)
Theorem isMatch_matchBase (fp : string) (pattern : loc + string) (r : loc)
    (s : state) (re : loc) (s1 : state) :
  to_regexp pattern (Some r) s = (Ok re, s1) →
  truthy (get (deref s1 r) "matchBase") = true →
  (isMatch fp pattern (Some r) s).1 =
    match fileRe_exec fp with
    | None => Throw TypeError
    | Some m0 => Ok ((test re m0 s1).1 || (test re fp (test re m0 s1).2).1)
    end
  ∧ (fileRe_exec fp = None → (isMatch fp pattern (Some r) s).2 = s1).
Proof.
  intros Hre Hbase. unfold isMatch. rewrite Hre, Hbase.
  destruct (fileRe_exec fp) as [m0|]; [|done].
  split; [|done].
  destruct (test re m0 s1) as [[|] s2]; [done|]. cbn [fst snd orb].
  by destruct (test re fp s2).
Qed.

(** * The options object and the cache *)


(** What the code does: once the cache is populated, a call returns the
    cached matcher without running the translator if and only if the glob
    is the cached glob and every property of the new options object is a
    property, with the same value, of the object [optsCache] is bound
    to. *)
Lemma makeRe_hit_iff (glob : string) (options : option loc) (s : state)
    (rc : loc) :
  populated s = true →
  optsCache s = Some rc →
  let new := entry_options options s in
  let first := deref s rc in
  let s' := (makeRe glob options s).2 in
  ((∃ l, globRe s = Some l ∧ (makeRe glob options s).1 = Ok l)
   ∧ translated s' = translated s)
  ↔ (cache s = Some glob ∧ ∀ k v, new !! k = Some v → first !! k = Some v).
Proof.
  intros Hpop Hrc new first s'.
  unfold populated in Hpop.
  apply andb_true_iff in Hpop as [Hpop _].
  apply andb_true_iff in Hpop as [Hre Hc].
  apply bool_decide_eq_true_1 in Hre as [re0 Hre].
  apply bool_decide_eq_true_1 in Hc as [g0 Hc].
  subst s'. rewrite makeRe_or_new.
  unfold entry_options in new.
  pose proof (or_new_vars options s) as (Hg0 & Hc0 & Ho0 & _ & Ht0).
  assert (deref (or_new options s).2 rc = first) as Hfirst by apply deref_or_new.
  destruct (or_new options s) as [r s0]. cbn [fst snd] in *.
  rewrite <- equal_spec, <- Hfirst, <- Ht0, <- Hc0, <- Hg0.
  rewrite <- Ho0 in Hrc. rewrite <- Hc0 in Hc. rewrite <- Hg0 in Hre.
  destruct (makeRe_cases glob r s0)
    as [re Heq Hcg Hreg|g om out s' o agree Hg _ _ Htr _ _ _]; cbn [fst snd].
  - rewrite Hrc in Heq. rewrite Hc in Hcg. cbn in Heq, Hcg. subst g0.
    split; [done|]. intros _. split; [by exists re|done].
  - split.
    + intros [_ Hlen]. rewrite Htr in Hlen. apply (f_equal length) in Hlen.
      cbn in Hlen. lia.
    + intros [Hcg Heq]. subst agree o new. rewrite Hrc in Hg. cbn in Hg.
      destruct Hg as [[_ [Hne|[_ Hn]]]|[_ [_ (c & Hc' & Hne)]]]; congruence.
Qed.

(** * The resolver *)

Lemma accumulator_cons (negative : bool) (b : bool) (m : match_result)
    (outs : list (bool * match_result)) :
  accumulator negative ((b, m) :: outs) =
  ((if Bool.eqb b negative then elements m else []) ++ accumulator negative outs)%list.
Proof. reflexivity. Qed.

(** The loop of the resolver appends, to each accumulator, the outputs of
    its polarity. *)
Lemma micromatch_loop_outputs (files : list string) (opts : loc)
    (patterns neg res : list string) (s : state) :
  micromatch_loop files opts patterns neg res s =
  match pattern_outputs files opts patterns s with
  | (Throw e, s1) => (Throw e, s1)
  | (Ok outs, s1) =>
      (Ok ((neg ++ accumulator true outs)%list, (res ++ accumulator false outs)%list), s1)
  end.
Proof.
  revert neg res s.
  induction patterns as [|p rest IH]; intros neg res s;
    cbn [micromatch_loop pattern_outputs].
  - by rewrite !app_nil_r.
  - unfold list_glob, list_negated. destruct (starts_with_bang p).
    + destruct (match_ _ _ _ s) as [[m|e] s1]; [|done].
      rewrite IH. destruct (pattern_outputs _ _ rest s1) as [[outs|e] s2]; [|done].
      rewrite !accumulator_cons. simpl. by rewrite app_assoc.
    + destruct (match_ _ _ _ s) as [[m|e] s1]; [|done].
      rewrite IH. destruct (pattern_outputs _ _ rest s1) as [[outs|e] s2]; [|done].
      rewrite !accumulator_cons. simpl. by rewrite app_assoc.
Qed.

(** C1: on a sequence of patterns the resolver returns the positive
    accumulator minus the negative one, where the output of [match] on a
    pattern with its leading [!] removed goes to the negative accumulator
    and the output of [match] on any other pattern goes to the positive
    one; and the difference drops a candidate as soon as it occurs in the
    negative accumulator, however often it occurs in either. *)
Theorem micromatch_accumulators (C P : list string) (options : option loc)
    (s : state) :
  micromatch (Some (CArray C)) (Some (PArray P)) options s =
    (let '(opts, s0) := or_new options s in
     match pattern_outputs C opts P s0 with
     | (Throw e, s1) => (Throw e, s1)
     | (Ok outs, s1) =>
         (Ok (MFiles (diff (accumulator false outs) (accumulator true outs))), s1)
     end)
  ∧ ∀ (pos neg : list string) (x : string),
      x ∈ diff pos neg ↔ x ∈ pos ∧ x ∉ neg.
Proof.
  split; [|intros; apply elem_of_diff].
  unfold micromatch. cbn [falsy_candidates falsy_patterns orb arrayify].
  destruct (or_new options s) as [opts s0].
  rewrite micromatch_loop_outputs.
  by destruct (pattern_outputs C opts P s0) as [[outs|e] s1].
Qed.

(** * The collection matcher *)

(** The paths [kept] are the normalised candidates that pass the test,
    in order. *)
Lemma kept_filter (re : RegExp) (o : obj) (files l : list string) :
  kept re o files = Ok l →
  l = List.filter (passes re o) (map (λ f, normal f o) files).
Proof.
  revert l. induction files as [|f rest IH]; intros l; simpl.
  - by intros [= <-].
  - destruct (path_test re o (normal f o)) as [b|e] eqn:Hb; [|done].
    destruct (kept re o rest) as [l'|e]; [|done].
    intros [= <-]. unfold passes at 1. rewrite Hb.
    rewrite <- (IH l' eq_refl). by destruct b.
Qed.

Lemma kept_throw (re : RegExp) (o : obj) (files : list string) (e : error) :
  kept re o files = Throw e →
  e = TypeError ∧ truthy (get o "matchBase") = true.
Proof.
  induction files as [|f rest IH]; simpl; [done|].
  destruct (path_test re o (normal f o)) as [b|e'] eqn:Hb.
  - destruct (kept re o rest); [done|]. intros [= <-]. by apply IH.
  - intros [= <-]. unfold path_test in Hb.
    destruct (truthy (get o "matchBase")); [|done].
    destruct (fileRe_exec _); by simplify_eq.
Qed.

Lemma filter_sublist (keep : string → bool) (l : list string) :
  List.filter keep l `sublist_of` l.
Proof.
  induction l as [|x l IH]; [done|]. cbn [List.filter].
  destruct (keep x); [by apply sublist_skip|by apply sublist_cons].
Qed.

(** [match] throws [InvalidInputKind] exactly when its [files] argument is
    neither a string nor an array. *)
Lemma match_InvalidInputKind_iff (files : files_arg) (p : string)
    (options : option loc) (s : state) :
  (match_ files p options s).1 = Throw InvalidInputKind ↔ files = FOther.
Proof.
  destruct files as [c|]; [|done]. rewrite match_unfold.
  destruct (or_new options s) as [r s0]. cbv zeta.
  pose proof (makeRe_throw (match_glob (deref s0 r) p) (Some r) s0) as Hthrow.
  destruct (makeRe _ _ s0) as [[re|e] s1]; cbn [fst] in *.
  - pose proof (match_loop_throw re r (arrayify c) [] s1) as Hloop.
    destruct (match_loop _ _ _ _ _) as [[res|e] s2]; cbn [fst] in *; [done|].
    destruct (Hloop e eq_refl) as [-> _]. done.
  - split; [|done]. intros [= ->]. by destruct (Hthrow _ eq_refl).
Qed.

(** C5: with a normaliser that writes nothing, [match] returns either
    the compiled pattern itself (under [nonull], when nothing matched and
    the match is not negated), or a part, in order, of the normalised
    candidates, or of the candidates themselves when the match is
    negated; and when the compiled pattern has neither the flag [g] nor
    the flag [y], that part is a selection by value, which keeps
    duplicates.  A failure is the [TypeError] of the basename test, the
    [SyntaxError] of the [RegExp] constructor or the failure of the
    translator. *)
Theorem match_result_shape (c : candidates) (p : string) (options : option loc)
    (s : state) :
  reads_only unixify →
  let o := entry_options options s in
  let compiled := makeRe (match_glob o p) options s in
  let o' := deref (match_ (FCand c) p options s).2 (or_new options s).1 in
  let source_list :=
    if negation o p then arrayify c else map (λ f, normal f o') (arrayify c) in
  match (match_ (FCand c) p options s).1 with
  | Ok (MFiles l) =>
      l `sublist_of` source_list
      ∧ (matcher_stateless compiled →
         ∃ keep : string → bool, l = List.filter keep source_list)
  | Ok (MPattern re) =>
      truthy (get o' "nonull") = true ∧ negation o p = false ∧ compiled.1 = Ok re
  | Throw e =>
      (e = TypeError ∧ truthy (get o' "matchBase") = true)
      ∨ ((e = SyntaxError ∨ e = TranslatorError) ∧ compiled.1 = Throw e)
  end.
Proof.
  intros Hro o compiled o' source_list. subst o compiled o' source_list.
  unfold entry_options. rewrite match_unfold, (makeRe_or_new _ options).
  destruct (or_new options s) as [r s0]. cbn [fst snd]. cbv zeta.
  pose proof (makeRe_throw (match_glob (deref s0 r) p) (Some r) s0) as Hthrow.
  destruct (makeRe _ _ s0) as [[re|e] s1] eqn:Hm; cbn [fst snd] in *.
  - pose proof (match_loop_throw re r (arrayify c) [] s1) as Hloop.
    pose proof (λ l, match_loop_sublist re r (arrayify c) [] l s1 Hro) as Hsub.
    pose proof (match_loop_same re r (arrayify c) [] s1 Hro) as Hsame.
    destruct (match_loop _ _ _ _ _) as [[res|e] s2] eqn:Hl; cbn [fst snd] in *.
    + destruct (Hsub res eq_refl) as (l' & Hres & Hl'). cbn in Hres. subst l'.
      rewrite (same_but_lastIndex_deref _ _ _ Hsame) in *.
      unfold match_answer. destruct (negation _ p).
      * split.
        -- apply filter_sublist.
        -- intros _. by eexists.
      * destruct (truthy (get (deref s1 r) "nonull")) eqn:Hnonull; cbn [andb].
        -- case_bool_decide; [done|]. split; [done|].
           intros Hst. destruct (Hst re eq_refl) as (rx & Hrx & Hfl). cbn in Hrx.
           rewrite (match_loop_kept re r rx _ _ s1 Hro Hrx Hfl) in Hl.
           destruct (kept _ _ _) as [k|] eqn:Hk; [|done].
           injection Hl as <- _. eexists. by apply kept_filter in Hk.
        -- split; [done|].
           intros Hst. destruct (Hst re eq_refl) as (rx & Hrx & Hfl). cbn in Hrx.
           rewrite (match_loop_kept re r rx _ _ s1 Hro Hrx Hfl) in Hl.
           destruct (kept _ _ _) as [k|] eqn:Hk; [|done].
           injection Hl as <- _. eexists. by apply kept_filter in Hk.
    + left. by apply Hloop.
  - right. split; [by apply Hthrow|done].
Qed.

End Claims.

Section Negate.
Context `{Collaborators}.

(** C4: for a pattern without a leading [!] and options whose [negate]
    is true, [match] negates only if [nonegate] is [true] as well; with
    [nonegate] false or absent [negate] is not read and what the loop has
    collected is returned (or, under [nonull] when it has collected
    nothing, the compiled pattern).  What the loop collects, when the
    normaliser writes nothing and the compiled pattern has neither the
    flag [g] nor the flag [y], is the normalised candidates that pass the
    test. *)
Theorem match_negate_option (c : candidates) (p : string) (r : loc) (s : state) :
  let o := deref s r in
  starts_with_bang p = false →
  truthy (get o "negate") = true →
  (match_ (FCand c) p (Some r) s).1 =
    match makeRe p (Some r) s with
    | (Throw e, _) => Throw e
    | (Ok re, s1) =>
        match match_loop re r (arrayify c) [] s1 with
        | (Throw e, _) => Throw e
        | (Ok res, s2) =>
            Ok (if bool_decide (get o "nonegate" = VBool true)
                then MFiles (diff (arrayify c) res)
                else if truthy (get (deref s2 r) "nonull") && bool_decide (res = [])
                     then MPattern re
                     else MFiles res)
        end
    end
  ∧ (reads_only unixify →
     ∀ re s1 rx, makeRe p (Some r) s = (Ok re, s1) →
       regexps s1 !! re = Some rx → stateful (flags rx) = false →
       match_loop re r (arrayify c) [] s1 = (kept rx (deref s1 r) (arrayify c), s1)).
Proof.
  intros o Hbang Hneg. split.
  - rewrite match_unfold. cbn [or_new]. cbv zeta. fold o.
    assert (match_glob o p = p) as ->.
    { unfold match_glob. rewrite Hbang. by case_bool_decide. }
    destruct (makeRe p (Some r) s) as [[re|e] s1]; [|done].
    destruct (match_loop _ _ _ _ _) as [[res|e] s2]; [|done]. cbn [fst].
    unfold negation, match_answer. rewrite Hbang, Hneg.
    by case_bool_decide.
  - intros Hro re s1 rx _ Hrx Hfl.
    rewrite (match_loop_kept re r rx _ _ s1 Hro Hrx Hfl).
    by destruct (kept _ _ _).
Qed.

End Negate.

(** * Steady compilations *)

Lemma get_settled (o : obj) (k : string) :
  k ≠ "negated" → get (settled o) k = get o k.
Proof. intros Hk. unfold settled. by rewrite get_insert_ne. Qed.

Lemma negated_of_steady (o : obj) (b : bool) :
  truthy (get o "negated") = true ∨ b = false →
  negated_of o b = negated_of o false.
Proof.
  intros [Ht| ->]; [|done]. by rewrite (negated_of_truthy o b), (negated_of_truthy o false).
Qed.

Lemma negated_of_settled (o : obj) (b : bool) :
  truthy (get o "negated") = true ∨ b = false →
  negated_of (settled o) b = negated_of o false.
Proof.
  intros Hb. unfold negated_of at 1. unfold settled at 1 2.
  rewrite get_insert_eq.
  destruct (truthy (negated_of o false)) eqn:Hnv; [done|].
  destruct Hb as [Ht| ->].
  - rewrite (negated_of_truthy o false Ht) in Hnv. congruence.
  - unfold negated_of in *.
    destruct (truthy (get o "negated")) eqn:Ht; [congruence|done].
Qed.

Lemma settled_settled (o : obj) (b : bool) :
  truthy (get o "negated") = true ∨ b = false →
  <["negated" := negated_of (settled o) b]> (settled o) = settled o.
Proof.
  intros Hb. rewrite negated_of_settled by done.
  unfold settled. by rewrite insert_insert_eq.
Qed.

Lemma settled_idemp (o : obj) : settled (settled o) = settled o.
Proof. unfold settled at 1. apply settled_settled. by right. Qed.

Lemma flags_of_settled (o : obj) : flags_of (settled o) = flags_of o.
Proof. unfold flags_of. by rewrite !get_settled. Qed.

Lemma regex_flags_settled (o : obj) : regex_flags (settled o) = regex_flags o.
Proof. unfold regex_flags. by rewrite flags_of_settled, !get_settled. Qed.

Section Steady.
Context `{Collaborators}.

Lemma negation_settled (o : obj) (p : string) : negation (settled o) p = negation o p.
Proof. unfold negation. by rewrite !get_settled. Qed.

Lemma match_glob_settled (o : obj) (p : string) :
  match_glob (settled o) p = match_glob o p.
Proof. unfold match_glob. by rewrite !get_settled. Qed.

(** A steady glob compiles to the same matcher before and after
    [negated] has been stored, and leaves the options settled. *)
Lemma compile_steady (o : obj) (g : string) :
  steady o g →
  (compile (flags_of o) g o).1 = steady_regexp o g
  ∧ (∀ re, steady_regexp o g = Ok re → (compile (flags_of o) g o).2 = settled o)
  ∧ compile (flags_of (settled o)) g (settled o) = (steady_regexp o g, settled o).
Proof.
  intros (_ & _ & Ho & Hs & Hexp & Hneg). unfold steady_regexp.
  rewrite flags_of_settled. unfold compile.
  rewrite !get_settled by done.
  destruct (expand g o) as [out o1], (expand g (settled o)) as [out' o1'].
  cbn [fst snd] in *. subst o1 o1' out'.
  destruct out as [p|]; cbn [fst snd]; [|done].
  assert (truthy (get o "negated") = true ∨ parsed_negated p = false) as Hb.
  { destruct Hneg as [?|Hn]; [by left|right; by apply Hn]. }
  rewrite negated_of_settled, negated_of_steady by done.
  split; [done|]. split; [done|].
  f_equal. rewrite <- (negated_of_settled o (parsed_negated p)) by done.
  by apply settled_settled.
Qed.

Lemma steady_regexp_flags (o : obj) (g : string) (re : RegExp) :
  steady_regexp o g = Ok re → flags re = regex_flags o.
Proof.
  intros Hre. apply compile_flags in Hre as [-> _].
  unfold regex_flags. by rewrite get_settled.
Qed.

Lemma path_test_settled (rx : RegExp) (o : obj) (fp : string) :
  path_test rx (settled o) fp = path_test rx o fp.
Proof. unfold path_test. by rewrite get_settled. Qed.

Lemma normal_anyway_quiet (o : obj) (files : list string) :
  normal_anyway o files → quiet o files.
Proof.
  intros Hn. eapply Forall_impl; [exact Hn|]. cbn. by intros f ->.
Qed.

Lemma kept_settled (rx : RegExp) (o : obj) (files : list string) :
  normal_anyway o files →
  kept rx (settled o) files = kept rx o files.
Proof.
  induction files as [|f rest IH]; [done|]. intros [Hf Hrest]%Forall_cons.
  assert (normal f o = normal f (settled o)) as Hn.
  { unfold normal at 1. by rewrite Hf. }
  cbn [kept]. by rewrite Hn, path_test_settled, IH.
Qed.

Lemma quiet_settled_anyway (o : obj) (files : list string) :
  settled o = o → quiet (settled o) files → normal_anyway o files.
Proof.
  intros Hset Hq. unfold quiet, normal_anyway in *. rewrite Hset in *.
  eapply Forall_impl; [exact Hq|]. cbn. intros f Hf. unfold normal.
  by destruct (unixify f o) as [fp o']; cbn [fst snd] in *; subst.
Qed.

(** From a cache that holds no matcher for [g], or from one that fits
    the options, a steady glob compiles to [steady_regexp], and the cache
    fits afterwards. *)
Lemma makeRe_steady (g : string) (r : loc) (o : obj) (files : list string)
    (s : state) :
  steady o g →
  quiet (settled o) files →
  no_match_for r o [g] s ∨ fits_state r o files s →
  match steady_regexp o g, (makeRe g (Some r) s).1 with
  | Ok re, Ok l =>
      regexps (makeRe g (Some r) s).2 !! l = Some re
      ∧ fits_state r o files (makeRe g (Some r) s).2
  | Throw e, Throw e' => e = e'
  | _, _ => False
  end.
Proof.
  intros Hst Hq Hs.
  destruct (compile_steady o g Hst) as (Hc1 & Hc2 & Hc3).
  destruct Hst as (Hn1 & Hn2 & _).
  assert (deref s r = o ∨ deref s r = settled o) as Hdo.
  { destruct Hs as [[? _]|[? _]]; [by left|done]. }
  destruct (makeRe_cases g r s)
    as [l Heq Hcg Hl|g' om out s' o0 agree Hg Hc Ho Htr Hd Hh Hout]; cbn [fst snd].
  - destruct Hs as [[_ [Hnone|(c & Hc & Hne)]]
                   |(Hd & (g0 & l0 & rx & Hc & Hl0 & Hrx & Hsr) & Hfiles)].
    + congruence.
    + rewrite Hc in Hcg. cbn in Hcg. subst c. exfalso. apply Hne. by left.
    + rewrite Hc in Hcg. cbn in Hcg. subst g0. rewrite Hsr.
      assert (l0 = l) as -> by congruence.
      split; [done|]. split; [done|]. split; [|done]. by exists g, l, rx.
  - assert (g' = g ∧ om = deref s r) as [-> ->].
    { destruct Hg as [[[= -> ->] _]|[Hu _]]; [done|]. subst o0.
      destruct Hdo as [Hdo|Hdo]; rewrite Hdo in *; rewrite ?Hn1, ?Hn2 in Hu;
        by injection Hu as -> ->. }
    subst o0.
    assert ((compile (flags_of (deref s r)) g (deref s r)).1 = steady_regexp o g
            ∧ (∀ re, steady_regexp o g = Ok re →
                 (compile (flags_of (deref s r)) g (deref s r)).2 = settled o))
      as [Hk1 Hk2].
    { destruct Hdo as [-> | ->]; [done|]. by rewrite Hc3. }
    rewrite Hk1 in Hout.
    destruct (steady_regexp o g) as [re|e] eqn:Hsr, out as [l|e']; try done.
    + destruct Hout as (Hg' & _ & Hre').
      split; [by rewrite Hre', lookup_insert_eq|].
      assert (deref s' r = settled o) as Hd' by by rewrite Hd, (Hk2 re).
      split; [by right|]. split.
      * exists g, l, re. repeat split; try done. by rewrite Hre', lookup_insert_eq.
      * intros Ho'. rewrite Hd' in Ho'. by apply quiet_settled_anyway.
    + by destruct Hout.
Qed.

(** Under the same conditions, and with flags that are neither [g] nor
    [y], [match] returns [steady_match]. *)
Lemma match_steady (files : list string) (p : string) (r : loc) (o : obj)
    (s : state) :
  stateful (regex_flags o) = false →
  steady o (match_glob o p) →
  quiet (settled o) files →
  no_match_for r o [match_glob o p] s ∨ fits_state r o files s →
  as_array (match_ (FCand (CArray files)) p (Some r) s).1 = steady_match o files p
  ∧ (∀ m, (match_ (FCand (CArray files)) p (Some r) s).1 = Ok m →
       fits_state r o files (match_ (FCand (CArray files)) p (Some r) s).2).
Proof.
  intros Hfl Hst Hq Hs. rewrite match_unfold. cbn [or_new arrayify]. cbv zeta.
  assert (match_glob (deref s r) p = match_glob o p
          ∧ negation (deref s r) p = negation o p) as [-> ->].
  { destruct Hs as [[-> _]|[[-> | ->] _]]; try done;
      by rewrite match_glob_settled, negation_settled. }
  pose proof (makeRe_steady _ r o files s Hst Hq Hs) as Hm.
  unfold steady_match.
  destruct (steady_regexp o (match_glob o p)) as [rx|e] eqn:Hsr,
           (makeRe (match_glob o p) (Some r) s) as [[l|e'] s1]; cbn [fst snd] in *;
    try done.
  - destruct Hm as (Hl & Hfit).
    assert (quiet (deref s1 r) files
            ∧ kept rx (deref s1 r) files = kept rx (settled o) files
            ∧ get (deref s1 r) "nonull" = get (settled o) "nonull")
      as (Hq1 & Hkept & Hnonull).
    { destruct Hfit as ([Hd|Hd] & _ & Hfiles); rewrite Hd; [|done].
      specialize (Hfiles Hd).
      split; [by apply normal_anyway_quiet|].
      split; [|by rewrite get_settled]. symmetry. by apply kept_settled. }
    rewrite (match_loop_kept_quiet l r rx _ _ s1 Hq1 Hl) by
      by rewrite (steady_regexp_flags _ _ _ Hsr).
    rewrite Hkept.
    destruct (kept rx (settled o) files) as [res|e]; [|done].
    cbn [fst snd as_array]. split; [|done].
    unfold match_answer. destruct (negation o p); [done|].
    rewrite Hnonull.
    destruct (truthy (get (settled o) "nonull")); [|done]. cbn [andb].
    case_bool_decide as Hres; [|done]. cbn [app] in Hres. by rewrite Hres.
  - by subst e'.
Qed.

End Steady.

Section Order.
Context `{Collaborators}.

Lemma micromatch_outputs (c : candidates) (P : list string) (options : option loc)
    (s : state) :
  micromatch (Some c) (Some (PArray P)) options s =
  if falsy_candidates c then (Ok (MFiles []), s)
  else
    let '(opts, s0) := or_new options s in
    match pattern_outputs (arrayify c) opts P s0 with
    | (Throw e, s1) => (Throw e, s1)
    | (Ok outs, s1) =>
        (Ok (MFiles (diff (accumulator false outs) (accumulator true outs))), s1)
    end.
Proof.
  unfold micromatch. cbn [falsy_patterns]. rewrite orb_false_r.
  destruct (falsy_candidates c); [done|].
  destruct (or_new options s) as [opts s0].
  rewrite micromatch_loop_outputs.
  by destruct (pattern_outputs _ opts P s0) as [[outs|e] s1].
Qed.

Lemma accumulator_as_arrays (negative : bool) (outs : list (bool * match_result)) :
  accumulator negative (map (λ bm, (bm.1, MFiles (elements bm.2))) outs)
  = accumulator negative outs.
Proof.
  induction outs as [|[b m] outs IH]; [done|]. cbn [map fst snd].
  by rewrite !accumulator_cons, IH.
Qed.

Lemma pattern_outputs_steady (files P : list string) (r : loc) (o : obj)
    (s : state) :
  stateful (regex_flags o) = false →
  quiet (settled o) files →
  Forall (λ p, steady o (match_glob o (list_glob p))) P →
  no_match_for r o (list_globs o P) s ∨ fits_state r o files s →
  outputs_as_arrays (pattern_outputs files r P s).1 = steady_outputs o files P.
Proof.
  intros Hfl Hq. revert s. induction P as [|p rest IH]; intros s HP Hs; [done|].
  apply Forall_cons in HP as [Hp Hrest].
  cbn [pattern_outputs steady_outputs].
  assert (no_match_for r o [match_glob o (list_glob p)] s ∨ fits_state r o files s)
    as Hs1.
  { destruct Hs as [[Hd [Hn|(c & Hc & Hall)]]|Hfit]; [left|left|by right].
    - split; [done|by left].
    - split; [done|]. right. exists c. split; [done|].
      intros [->|Hin%elem_of_nil]%elem_of_cons; [|done]. apply Hall. by left. }
  destruct (match_steady files (list_glob p) r o s Hfl Hp Hq Hs1) as [Hm Hfit].
  destruct (match_ _ _ _ s) as [[m|e] s1]; cbn [fst snd as_array] in *;
    rewrite <- Hm; [|done].
  rewrite <- (IH s1 Hrest (or_intror (Hfit m eq_refl))).
  by destruct (pattern_outputs files r rest s1) as [[ms|e] s2].
Qed.

Lemma steady_outputs_throw (o : obj) (files P : list string) (e : error) :
  steady_outputs o files P = Throw e →
  ∃ p e', p ∈ P ∧ steady_match o files (list_glob p) = Throw e'.
Proof.
  induction P as [|p rest IH]; cbn [steady_outputs]; [done|].
  destruct (steady_match o files (list_glob p)) as [m|e'] eqn:Hm.
  - destruct (steady_outputs o files rest); [done|]. intros [= <-].
    destruct (IH eq_refl) as (q & e' & Hq & Hthrow).
    exists q, e'. split; [by right|done].
  - intros [= <-]. exists p, e'. split; [by left|done].
Qed.

Lemma steady_outputs_ok (o : obj) (files P : list string)
    (outs : list (bool * match_result)) :
  steady_outputs o files P = Ok outs →
  (∀ p, p ∈ P → ∃ m, steady_match o files (list_glob p) = Ok m)
  ∧ ∀ x negative,
      x ∈ accumulator negative outs ↔
      ∃ p m, p ∈ P ∧ list_negated p = negative
             ∧ steady_match o files (list_glob p) = Ok m ∧ x ∈ elements m.
Proof.
  revert outs. induction P as [|p rest IH]; intros outs; cbn [steady_outputs].
  - intros [= <-]. split.
    + intros p Hp. by apply elem_of_nil in Hp.
    + intros x negative. split.
      * intros Hx. by apply elem_of_nil in Hx.
      * intros (p & m & Hp & _). by apply elem_of_nil in Hp.
  - destruct (steady_match o files (list_glob p)) as [m|e] eqn:Hm; [|done].
    destruct (steady_outputs o files rest) as [ms|e]; [|done].
    intros [= <-]. destruct (IH ms eq_refl) as [IHok IHacc]. split.
    + intros q [->|Hq]%elem_of_cons; [by exists m|by apply IHok].
    + intros x negative. rewrite accumulator_cons, elem_of_app, IHacc. split.
      * intros [Hx|(q & mq & Hq & Hneg & Hmq & Hx)].
        -- destruct (Bool.eqb (list_negated p) negative) eqn:Hb.
           ++ apply Bool.eqb_prop in Hb. exists p, m.
              split; [by left|done].
           ++ by apply elem_of_nil in Hx.
        -- exists q, mq. split; [by right|done].
      * intros (q & mq & [->|Hq]%elem_of_cons & Hneg & Hmq & Hx).
        -- left. rewrite Hneg, Bool.eqb_reflx. congruence.
        -- right. by exists q, mq.
Qed.

(** A harmless cache, as the resolver meets it after [opts || {}]. *)
Lemma cache_harmless_entry (options : option loc) (globs files : list string)
    (s : state) :
  cache_harmless (entry_options options s) globs files s →
  no_match_for (or_new options s).1 (entry_options options s) globs (or_new options s).2
  ∨ fits_state (or_new options s).1 (entry_options options s) files (or_new options s).2.
Proof.
  unfold entry_options.
  pose proof (or_new_vars options s) as (Hg0 & Hc0 & _ & Hr0 & _).
  intros [Hn|[(c0 & Hc & Hnot)|[(g & l & re & ? & ? & ? & ?) Hfiles]]].
  - left. split; [done|]. left. congruence.
  - left. split; [done|]. right. exists c0. split; [congruence|done].
  - right. split; [by left|]. split; [|done].
    exists g, l, re. repeat split; congruence.
Qed.

(** The outcome of the resolver on a list of steady patterns. *)
Lemma micromatch_steady (c : candidates) (P : list string) (options : option loc)
    (s : state) :
  let o := entry_options options s in
  stateful (regex_flags o) = false →
  quiet (settled o) (arrayify c) →
  cache_harmless o (list_globs o P) (arrayify c) s →
  Forall (λ p, steady o (match_glob o (list_glob p))) P →
  (micromatch (Some c) (Some (PArray P)) options s).1 =
  if falsy_candidates c then Ok (MFiles [])
  else
    match steady_outputs o (arrayify c) P with
    | Throw e => Throw e
    | Ok outs =>
        Ok (MFiles (diff (accumulator false outs) (accumulator true outs)))
    end.
Proof.
  intros o Hfl Hq Hs HP. rewrite micromatch_outputs.
  destruct (falsy_candidates c); [done|].
  apply cache_harmless_entry in Hs. subst o. unfold entry_options in *.
  destruct (or_new options s) as [r s0]. cbn [fst snd] in *.
  rewrite <- (pattern_outputs_steady (arrayify c) P r _ s0 Hfl Hq HP Hs).
  destruct (pattern_outputs _ r P s0) as [[outs|e] s1]; [|done].
  cbn [fst outputs_as_arrays]. by rewrite !accumulator_as_arrays.
Qed.

(** C3: permuting the patterns does not change the set of candidates
    the resolver returns, nor whether it fails, when the flags are
    neither [g] nor [y], the normaliser writes nothing to the options
    when it is handed a candidate, the cache cannot hand the call a
    matcher built for other options (no matcher is cached, or the cached
    glob is none of the call's, or the cached matcher is the one these
    options compile and normalising the candidates does not depend on
    [negated]), and every pattern of the list is steady (normalisation
    leaves its glob as it is, neither the normaliser nor the translator
    writes to the options when handed it, and the translator reports no
    negation for it unless [negated] already reads true, and does not
    depend on [negated] having been stored). *)
Theorem micromatch_permutation (c : candidates) (P P' : list string)
    (options : option loc) (s : state) :
  let o := entry_options options s in
  stateful (regex_flags o) = false →
  quiet (settled o) (arrayify c) →
  cache_harmless o (list_globs o P) (arrayify c) s →
  Forall (λ p, steady o (match_glob o (list_glob p))) P →
  P ≡ₚ P' →
  match (micromatch (Some c) (Some (PArray P)) options s).1,
        (micromatch (Some c) (Some (PArray P')) options s).1 with
  | Ok m, Ok m' => ∀ x, x ∈ elements m ↔ x ∈ elements m'
  | Throw _, Throw _ => True
  | _, _ => False
  end.
Proof.
  intros o Hfl Hq Hs HP Hperm.
  assert (Forall (λ p, steady o (match_glob o (list_glob p))) P') as HP'.
  { by rewrite <- Hperm. }
  assert (cache_harmless o (list_globs o P') (arrayify c) s) as Hs'.
  { destruct Hs as [?|[(c0 & ? & Hnot)|?]]; [by left| |by right; right].
    right. left. exists c0. split; [done|]. unfold list_globs in *.
    by rewrite <- Hperm. }
  rewrite !micromatch_steady by done. fold o.
  destruct (falsy_candidates c); [done|].
  destruct (steady_outputs o (arrayify c) P) as [outs|e] eqn:Hout;
    destruct (steady_outputs o (arrayify c) P') as [outs'|e'] eqn:Hout'.
  - apply steady_outputs_ok in Hout as [_ Hacc].
    apply steady_outputs_ok in Hout' as [_ Hacc'].
    intros x. cbn [elements]. rewrite !elem_of_diff, !Hacc, !Hacc'.
    by setoid_rewrite Hperm.
  - apply steady_outputs_ok in Hout as [Hok _].
    apply steady_outputs_throw in Hout' as (p & e0 & Hp & Hthrow).
    rewrite <- Hperm in Hp. destruct (Hok p Hp) as [m Hm]. congruence.
  - apply steady_outputs_ok in Hout' as [Hok _].
    apply steady_outputs_throw in Hout as (p & e0 & Hp & Hthrow).
    rewrite Hperm in Hp. destruct (Hok p Hp) as [m Hm]. congruence.
  - done.
Qed.

(** * Empty arguments *)

Lemma match_no_candidates (p : string) (r : loc) (s : state) :
  let o := deref s r in
  match_ (FCand (CArray [])) p (Some r) s =
  match makeRe (match_glob o p) (Some r) s with
  | (Throw e, s1) => (Throw e, s1)
  | (Ok re, s1) =>
      (Ok (if truthy (get (deref s1 r) "nonull") && negb (negation o p)
           then MPattern re else MFiles []), s1)
  end.
Proof.
  rewrite match_unfold. cbn [or_new arrayify match_loop]. cbv zeta.
  destruct (makeRe _ _ s) as [[re|e] s1]; [|done].
  unfold match_answer. destruct (negation (deref s r) p); cbn.
  - by rewrite andb_false_r.
  - by rewrite andb_true_r.
Qed.

Lemma match_no_candidates_elements (p : string) (r : loc) (s : state) :
  match (match_ (FCand (CArray [])) p (Some r) s).1 with
  | Ok m => elements m = []
  | Throw e => e = SyntaxError ∨ e = TranslatorError
  end.
Proof.
  rewrite match_no_candidates. cbv zeta.
  pose proof (makeRe_throw (match_glob (deref s r) p) (Some r) s) as Hthrow.
  destruct (makeRe _ _ s) as [[re|e] s1]; cbn [fst] in *; [|by apply Hthrow].
  by destruct (_ && _).
Qed.

Lemma micromatch_loop_no_candidates (r : loc) (P neg res : list string)
    (s : state) :
  match (micromatch_loop [] r P neg res s).1 with
  | Ok x => x = (neg, res)
  | Throw e => e = SyntaxError ∨ e = TranslatorError
  end.
Proof.
  revert neg res s. induction P as [|p rest IH]; intros neg res s;
    cbn [micromatch_loop]; [done|].
  destruct (starts_with_bang p).
  - pose proof (match_no_candidates_elements (slice1 p) r s) as Hm.
    destruct (match_ _ _ _ s) as [[m|e] s1]; cbn [fst] in Hm; [|done].
    rewrite Hm, app_nil_r. apply IH.
  - pose proof (match_no_candidates_elements p r s) as Hm.
    destruct (match_ _ _ _ s) as [[m|e] s1]; cbn [fst] in Hm; [|done].
    rewrite Hm, app_nil_r. apply IH.
Qed.

(** C7: with candidates or patterns absent or empty the resolver
    returns the empty sequence, except on an empty array of candidates
    with a non-empty pattern or list of patterns: there it still
    compiles, so that it fails when a compilation does, and, for a single
    pattern under [nonull] without negation, returns the compiled
    pattern. *)
Theorem micromatch_empty_input (files : option candidates)
    (patterns : option patterns_arg) (options : option loc) (s : state) :
  empty_candidates files || empty_patterns patterns = true →
  let res := micromatch files patterns options s in
  let o := entry_options options s in
  let o' := deref res.2 (or_new options s).1 in
  match res.1 with
  | Ok (MFiles l) => l = []
  | Ok (MPattern re) => nonull_sentinel files patterns o o' = true
  | Throw e =>
      (e = SyntaxError ∨ e = TranslatorError)
      ∧ compiles_for_nothing files patterns = true
  end
  ∧ (compiles_for_nothing files patterns = false →
     res.1 = Ok (MFiles []) ∧ translated res.2 = translated s)
  ∧ (∀ p, files = Some (CArray []) → patterns = Some (PString p) → p ≠ "" →
     res.1 = match (makeRe (match_glob o p) options s).1 with
             | Throw e => Throw e
             | Ok re =>
                 Ok (if truthy (get o' "nonull") && negb (negation o p)
                     then MPattern re else MFiles [])
             end).
Proof.
  intros Hempty res o o'. subst res o o'. unfold entry_options.
  destruct files as [c|]; [|by repeat split].
  destruct patterns as [p|]; [|by destruct c as [|[|]]; repeat split].
  unfold micromatch.
  destruct (falsy_candidates c || falsy_patterns p) eqn:Hfalsy.
  { cbn [fst snd].
    destruct c as [[|]|[|]], p as [[|]|[|]]; try done; repeat split; try done;
      intros q Hf Hq Hne; by simplify_eq. }
  apply orb_false_iff in Hfalsy as [Hc Hp].
  pose proof (or_new_vars options s) as (_ & _ & _ & _ & Htr).
  pose proof (λ g, makeRe_or_new g options s) as Hmk.
  destruct (or_new options s) as [r s0]. cbn [fst snd] in *.
  destruct p as [p|P].
  - (* a single pattern: the candidates are an empty array *)
    destruct c as [f|[|f l]]; cbn in Hempty, Hc, Hp.
    + destruct f; [done|]. destruct p; done.
    + cbn [arrayify nonull_sentinel compiles_for_nothing]. rewrite Hp. cbn [negb andb].
      rewrite match_no_candidates. cbv zeta.
      pose proof (makeRe_throw (match_glob (deref s0 r) p) (Some r) s0) as Hthrow.
      destruct (makeRe _ _ s0) as [[re|e] s1] eqn:Hmake; cbn [fst snd] in *.
      * split; [|split; [done|]].
        -- destruct (truthy (get (deref s1 r) "nonull") && negb (negation _ p)) eqn:Hn;
             [|done].
           by rewrite andb_comm in Hn.
        -- intros q _ [= <-] _. by rewrite Hmk, Hmake.
      * split; [|split; [done|]].
        -- split; [by apply Hthrow|done].
        -- intros q _ [= <-] _. by rewrite Hmk, Hmake.
    + destruct p; done.
  - destruct c as [f|[|f l]]; cbn in Hempty, Hc.
    + destruct f; [done|]. destruct P; [done|]. done.
    + cbn [arrayify].
      pose proof (micromatch_loop_no_candidates r P [] [] s0) as Hl.
      destruct P as [|p P].
      * cbn. repeat split; done.
      * destruct (micromatch_loop [] r (p :: P) [] [] s0) as [[[neg res]|e] s1];
          cbn [fst snd] in *.
        -- simplify_eq. repeat split; done.
        -- repeat split; done.
    + destruct P; [|done]. cbn. repeat split; done.
Qed.

End Order.

(** * Further properties of [equal] and [makeRe] *)

(** X1: [equal(a, b)] holds exactly when every property of [b] is in [a];
    it is reflexive and transitive, holds both ways only between objects
    with the same properties, and holds for every [a] when [b] is empty. *)
Theorem equal_order (a b c : obj) :
  (equal a b = true ↔ ∀ k v, b !! k = Some v → a !! k = Some v)
  ∧ equal a a = true
  ∧ (equal a b = true → equal b c = true → equal a c = true)
  ∧ (equal a b = true → equal b a = true → a = b)
  ∧ equal a ∅ = true.
Proof.
  split; [apply equal_spec|]. split; [apply equal_refl|]. split; [|split].
  - rewrite !equal_spec. intros Hab Hbc k v Hk. by apply Hab, Hbc.
  - rewrite !equal_spec. intros Hab Hba. apply map_eq. intros k.
    destruct (a !! k) as [v|] eqn:Ha.
    + symmetry. by apply Hba.
    + destruct (b !! k) as [v|] eqn:Hb; [|done].
      apply Hab in Hb. congruence.
  - apply equal_empty.
Qed.

Section More.
Context `{Collaborators}.

(** X2: [optsCache] is bound by the first call, to the options object of
    that call, and no later call rebinds it. *)
Theorem optsCache_bound_once (glob : string) (r rc : loc) (s : state)
    (calls : list (string * option loc)) :
  (optsCache s = None → optsCache (makeRe glob (Some r) s).2 = Some r)
  ∧ (optsCache s = Some rc → optsCache (run_calls calls s) = Some rc).
Proof.
  split.
  - intros Hnone. by rewrite makeRe_optsCache, Hnone.
  - revert s. induction calls as [|[g o] calls IH]; intros s Hrc; [done|].
    apply IH. by rewrite makeRe_optsCache, Hrc.
Qed.

Lemma makeRe_miss_built (glob : string) (r : loc) (s : state) (g : string) (om : obj)
    (out : outcome loc) (s' : state) :
  match (compile (flags_of (deref s r)) g om).1, out with
  | Ok re, Ok l =>
      globRe s' = Some l ∧ l = fresh (dom (regexps s))
      ∧ regexps s' = <[l := re]> (regexps s)
  | Throw e, Throw e' => e = e' ∧ globRe s' = None ∧ regexps s' = regexps s
  | _, _ => False
  end →
  built (compile (flags_of (deref s r)) g om).1 (out, s').
Proof.
  unfold built. cbn [fst snd].
  destruct (compile _ g om).1 as [re|e], out as [l|e']; try done.
  - intros (Hg & _ & ->). by rewrite lookup_insert_eq.
  - by intros (-> & Hg & _).
Qed.

(** X3: what the translator is given when it is run.  When the options
    differ from the cached ones, or nothing is cached, it is the glob as
    written, and the glob as written is cached; when the options agree
    and only the glob differs from the cached one, it is the normalised
    glob, and the normalised glob is cached.  Either way the call ends as
    the compilation of that glob does. *)
Theorem makeRe_normalises_on_glob_change (glob : string) (r : loc) (s : state) :
  let o := deref s r in
  let first := deref s (default r (optsCache s)) in
  let s' := (makeRe glob (Some r) s).2 in
  (equal first o = false ∨ (cache s = None ∧ globRe s = None) →
     translated s' = glob :: translated s ∧ cache s' = Some glob
     ∧ built (compile (flags_of o) glob o).1 (makeRe glob (Some r) s))
  ∧ (equal first o = true → ∀ g0, cache s = Some g0 → g0 ≠ glob →
     translated s' = (unixify glob o).1 :: translated s
     ∧ cache s' = Some (unixify glob o).1
     ∧ built (compile (flags_of o) (unixify glob o).1 (unixify glob o).2).1
             (makeRe glob (Some r) s)).
Proof.
  intros o first s'. subst s' first o.
  destruct (makeRe_cases glob r s)
    as [re Heq Hcg Hre|g om out s' o agree Hg Hc _ Htr _ _ Hout]; cbn [fst snd].
  - split.
    + intros [Hne|[Hcn Hgn]]; congruence.
    + intros _ g0 Hc Hne. rewrite Hc in Hcg. cbn in Hcg. congruence.
  - apply (makeRe_miss_built glob) in Hout. subst o agree. split.
    + intros Hcond.
      destruct Hg as [[[= -> ->] _]|[_ [Heq (c & Hc' & Hne)]]]; [done|].
      destruct Hcond as [?|[? _]]; congruence.
    + intros Heq g0 Hc0 Hne.
      destruct Hg as [[_ [Hf|[Hcg _]]]|[Hu _]].
      * congruence.
      * rewrite Hc0 in Hcg. cbn in Hcg. congruence.
      * rewrite <- Hu. done.
Qed.

(** X4: with the options object that [optsCache] is bound to (or on first
    use) and a glob that normalisation leaves as it is, a call that has
    returned a matcher returns the same matcher when it is made again,
    and this time changes nothing. *)
Theorem makeRe_twice (glob : string) (r : loc) (s : state) (l : loc) :
  optsCache s = None ∨ optsCache s = Some r →
  normal glob (deref s r) = glob →
  (makeRe glob (Some r) s).1 = Ok l →
  makeRe glob (Some r) (makeRe glob (Some r) s).2 = makeRe glob (Some r) s.
Proof.
  intros Hoc Hunix Hl.
  assert (default r (optsCache s) = r) as Hr by by destruct Hoc as [-> | ->].
  destruct (makeRe glob (Some r) s) as [out s1] eqn:Hfirst. cbn [fst snd] in *.
  subst out.
  assert (globRe s1 = Some l ∧ cache s1 = Some glob ∧ optsCache s1 = Some r)
    as (Hg1 & Hc1 & Ho1).
  { pose proof (makeRe_cases glob r s) as Hcase. rewrite Hfirst in Hcase.
    inversion Hcase as [re Heq Hcg Hre|g om out s' o agree Hg Hc Ho Htr Hd Hh Hout];
      subst.
    - cbn. by rewrite Hr.
    - rewrite Hr in Ho. split; [|split; [|done]].
      + destruct (compile _ g om).1; [|done]. by destruct Hout.
      + rewrite Hc. f_equal.
        destruct Hg as [[[= -> ->] _]|[Hu _]]; [done|].
        unfold normal in Hunix. fold o in Hunix. by rewrite <- Hu in Hunix. }
  destruct (makeRe_cases glob r s1)
    as [re Heq Hcg Hre|g om out s' o agree Hg Hc Ho Htr Hd Hh Hout].
  - rewrite Ho1. cbn. assert (re = l) as -> by congruence.
    f_equal. destruct s1. cbn in *. congruence.
  - exfalso. subst agree o. rewrite Ho1 in Hg. cbn in Hg. rewrite equal_refl in Hg.
    destruct Hg as [[_ [?|[_ ?]]]|[_ [_ (c & ? & ?)]]]; congruence.
Qed.

(** X5: a call without options, or with an empty options object, returns
    the cached matcher whenever the glob is the cached glob, whatever
    options that matcher was compiled with. *)
Theorem makeRe_empty_options_hit (glob : string) (options : option loc)
    (s : state) (l : loc) :
  entry_options options s = ∅ →
  is_Some (optsCache s) →
  cache s = Some glob →
  globRe s = Some l →
  (makeRe glob options s).1 = Ok l
  ∧ translated (makeRe glob options s).2 = translated s
  ∧ regexps (makeRe glob options s).2 = regexps s.
Proof.
  intros Hempty [rc Hrc] Hc Hg. rewrite makeRe_or_new. unfold entry_options in Hempty.
  pose proof (or_new_vars options s) as (Hg0 & Hc0 & Ho0 & Hr0 & Ht0).
  destruct (or_new options s) as [r s0]. cbn [fst snd] in *.
  rewrite <- Hg0 in Hg. rewrite <- Hc0 in Hc. rewrite <- Ho0 in Hrc.
  rewrite <- Ht0, <- Hr0.
  destruct (makeRe_cases glob r s0)
    as [re Heq Hcg Hre|g om out s' o agree Hgo _ _ _ _ _ _]; cbn [fst snd].
  - split; [congruence|done].
  - exfalso. subst agree o. rewrite Hempty, equal_empty in Hgo.
    rewrite Hc in Hgo. cbn in Hgo.
    destruct Hgo as [[_ [?|[_ ?]]]|[_ [_ (c & ? & ?)]]]; congruence.
Qed.

(** X6: a matcher that [makeRe] has just compiled is negated exactly when
    [negated] reads true in the options object after the call. *)
Theorem makeRe_compiled_polarity (glob : string) (r : loc) (s : state)
    (l : loc) (re : RegExp) :
  let s' := (makeRe glob (Some r) s).2 in
  translated s' ≠ translated s →
  (makeRe glob (Some r) s).1 = Ok l →
  regexps s' !! l = Some re →
  negated_matcher re ↔ truthy (get (deref s' r) "negated") = true.
Proof.
  cbn zeta.
  destruct (makeRe_cases glob r s)
    as [re' _ _ _|g om out s' o agree _ _ _ _ Hd _ Hout]; cbn [fst snd]; [done|].
  intros _ -> Hl. rewrite Hd.
  destruct (compile _ g om).1 as [re0|] eqn:Hc; [|done].
  destruct Hout as (_ & _ & Hre). rewrite Hre, lookup_insert_eq in Hl.
  injection Hl as <-. by apply compile_polarity.
Qed.

(** X19: a call that fails has run the translator, its failure is the
    [SyntaxError] of the [RegExp] constructor or the failure of the
    translator, and it leaves [cache] and [optsCache] set with no matcher
    in the cache, so that the call that follows, whatever its arguments,
    runs the translator. *)
Theorem makeRe_failure (glob : string) (r : loc) (s : state) (e : error)
    (glob2 : string) (options2 : option loc) :
  let s' := (makeRe glob (Some r) s).2 in
  (makeRe glob (Some r) s).1 = Throw e →
  (e = SyntaxError ∨ e = TranslatorError)
  ∧ globRe s' = None ∧ is_Some (cache s')
  ∧ optsCache s' = Some (default r (optsCache s))
  ∧ (∃ g, translated s' = g :: translated s)
  ∧ ∃ g2, translated (makeRe glob2 options2 s').2 = g2 :: translated s'.
Proof.
  cbn zeta. intros He.
  pose proof (makeRe_throw glob (Some r) s e He) as Hkind.
  pose proof (makeRe_optsCache glob (Some r) s) as Hoc.
  pose proof (makeRe_cache_set glob (Some r) s) as [Hcs _].
  assert (globRe (makeRe glob (Some r) s).2 = None
          ∧ ∃ g, translated (makeRe glob (Some r) s).2 = g :: translated s)
    as [Hnone Htr].
  { destruct (makeRe_cases glob r s)
      as [re' _ _ _|g om out s' o agree _ _ _ Htr _ _ Hout]; cbn [fst snd] in *;
      [done|].
    subst out. destruct (compile _ g om).1; [done|].
    destruct Hout as (_ & Hn & _). split; [done|]. by exists g. }
  repeat split; try done.
  rewrite makeRe_or_new.
  pose proof (or_new_vars options2 (makeRe glob (Some r) s).2) as (Hg0 & _ & _ & _ & Ht0).
  rewrite <- Ht0.
  destruct (makeRe_cases glob2 (or_new options2 (makeRe glob (Some r) s).2).1
              (or_new options2 (makeRe glob (Some r) s).2).2)
    as [re' _ _ Hre|g om out s' o agree _ _ _ Htr2 _ _ _]; cbn [fst snd].
  - congruence.
  - by exists g.
Qed.

End More.

(** * Further properties of [match] and of the resolver *)

Lemma diff_nil_r (a : list string) : diff a [] = a.
Proof.
  unfold diff. induction a as [|x a IH]; [done|]. cbn [List.filter].
  rewrite bool_decide_eq_true_2 by apply not_elem_of_nil. by rewrite IH.
Qed.

Section Entry.
Context `{Collaborators}.

(** What [match] leaves: the state its call to [makeRe] leaves, up to
    what the normaliser writes to the options and to the [lastIndex] of
    the matcher. *)
Lemma match_state (c : candidates) (p : string) (options : option loc) (s : state) :
  let s' := (match_ (FCand c) p options s).2 in
  let sm := (makeRe (match_glob (entry_options options s) p) options s).2 in
  translated s' = translated sm
  ∧ globRe s' = globRe sm ∧ cache s' = cache sm ∧ optsCache s' = optsCache sm
  ∧ (∀ r', r' ≠ (or_new options s).1 → heap s' !! r' = heap sm !! r')
  ∧ (reads_only unixify → heap s' = heap sm).
Proof.
  cbv zeta. rewrite match_unfold, (makeRe_or_new _ options). unfold entry_options.
  destruct (or_new options s) as [r s0]. cbn [fst snd]. cbv zeta.
  destruct (makeRe _ (Some r) s0) as [[re|e] s1]; [|done]. cbn [snd].
  pose proof (match_loop_vars re r (arrayify c) [] s1) as (Hg & Hc & Ho & Ht & Hh).
  pose proof (match_loop_same re r (arrayify c) [] s1) as Hsame.
  destruct (match_loop _ _ _ _ _) as [[res|e] s2]; cbn [snd] in *;
    (repeat split; try done; intros Hro; by destruct (Hsame Hro) as (_ & _ & _ & ? & _)).
Qed.

Lemma heap_or_new_ne (options : option loc) (s : state) (r' : loc) :
  r' ≠ (or_new options s).1 → heap (or_new options s).2 !! r' = heap s !! r'.
Proof.
  destruct options as [r|]; [done|]. cbn. intros Hne. by rewrite lookup_insert_ne.
Qed.

Lemma match_writes (files : files_arg) (p : string) (options : option loc)
    (s : state) :
  let s' := (match_ files p options s).2 in
  (length (translated s') ≤ S (length (translated s)))%nat
  ∧ (reads_only expand → reads_only unixify →
     ∀ r k, k ≠ "negated" → deref s' r !! k = deref s r !! k)
  ∧ (∀ r', r' ≠ (or_new options s).1 → heap s' !! r' = heap s !! r').
Proof.
  destruct files as [c|]; cbn zeta.
  - destruct (match_state c p options s) as (Ht & _ & _ & _ & Hh & Hheap).
    split; [|split].
    + rewrite Ht. apply makeRe_translated_le.
    + intros Hre Hru r k Hk. unfold deref at 1. rewrite (Hheap Hru).
      by apply makeRe_frame.
    + intros r' Hne. rewrite Hh by done. rewrite makeRe_or_new.
      rewrite makeRe_other_objects by done. by apply heap_or_new_ne.
  - cbn. split; [lia|done].
Qed.

(** X7: [match] on a [files] argument that is neither a string nor an
    array throws and leaves everything as it is.  In every case it runs
    the translator at most once and writes to no options object but its
    own; and when normaliser and translator write nothing, no property
    but [negated] changes. *)
Theorem match_frame (files : files_arg) (p : string) (options : option loc)
    (s : state) :
  let s' := (match_ files p options s).2 in
  (files = FOther → match_ files p options s = (Throw InvalidInputKind, s))
  ∧ (length (translated s') ≤ S (length (translated s)))%nat
  ∧ (reads_only expand → reads_only unixify →
     ∀ r k, k ≠ "negated" → deref s' r !! k = deref s r !! k)
  ∧ (∀ r', r' ≠ (or_new options s).1 → heap s' !! r' = heap s !! r').
Proof. split; [by intros ->|apply match_writes]. Qed.

(** X8: with automatic negation on, [match] on [!p] returns the
    candidates that are not among those [match] returns on [p], and leaves
    the same state. *)
Theorem match_bang_complement (c : candidates) (p : string) (options : option loc)
    (s : state) :
  get (entry_options options s) "nonegate" ≠ VBool true →
  starts_with_bang p = false →
  match_ (FCand c) (String "!" p) options s =
  (match (match_ (FCand c) p options s).1 with
   | Ok m => Ok (MFiles (diff (arrayify c) (elements m)))
   | Throw e => Throw e
   end, (match_ (FCand c) p options s).2).
Proof.
  intros Hnonegate Hbang. rewrite !match_unfold. unfold entry_options in Hnonegate.
  destruct (or_new options s) as [r s0]. cbn [fst snd] in *. cbv zeta.
  unfold match_glob, negation.
  rewrite !bool_decide_eq_false_2 by done. rewrite Hbang. cbn [starts_with_bang slice1].
  rewrite bool_decide_eq_true_2 by done.
  destruct (makeRe p (Some r) s0) as [[re|e] s1]; [|done].
  destruct (match_loop _ _ _ _ _) as [[res|e] s2]; [|done]. cbn [fst snd].
  unfold match_answer. do 3 f_equal.
  destruct (truthy _ && bool_decide (res = [])) eqn:Hn; [|done].
  apply andb_true_iff in Hn as [_ Hres]. by apply bool_decide_eq_true_1 in Hres as ->.
Qed.

Lemma pattern_outputs_frame (files P : list string) (opts : loc) (s : state) :
  let s' := (pattern_outputs files opts P s).2 in
  (length (translated s') ≤ length (translated s) + length P)%nat
  ∧ (reads_only expand → reads_only unixify →
     ∀ r k, k ≠ "negated" → deref s' r !! k = deref s r !! k)
  ∧ (∀ r', r' ≠ opts → heap s' !! r' = heap s !! r').
Proof.
  revert s. induction P as [|p rest IH]; intros s; cbn [pattern_outputs].
  - cbn. split; [lia|done].
  - destruct (match_writes (FCand (CArray files)) (list_glob p) (Some opts) s)
      as (Hlen & Hfr & Hh).
    destruct (match_ _ _ _ s) as [[m|e] s1]; cbn [fst snd length or_new] in *.
    + destruct (IH s1) as (Hlen' & Hfr' & Hh').
      destruct (pattern_outputs files opts rest s1) as [[ms|e] s2];
        cbn [fst snd] in *;
        (split; [lia|split;
           [intros Hre Hru r k Hk; by rewrite Hfr', Hfr
           |intros r' Hne; by rewrite Hh', Hh]]).
    + split; [lia|done].
Qed.

(** X10: with an argument absent or the empty string the resolver returns
    the empty array at once and leaves everything as it is.  In every
    case it runs the translator at most once per pattern and writes to no
    options object but its own; and when normaliser and translator write
    nothing, no property but [negated] changes. *)
Theorem micromatch_frame (files : option candidates) (patterns : option patterns_arg)
    (options : option loc) (s : state) :
  let s' := (micromatch files patterns options s).2 in
  (returns_at_once files patterns = true →
     micromatch files patterns options s = (Ok (MFiles []), s))
  ∧ (length (translated s') ≤ length (translated s) + pattern_count patterns)%nat
  ∧ (reads_only expand → reads_only unixify →
     ∀ r k, k ≠ "negated" → deref s' r !! k = deref s r !! k)
  ∧ (∀ r', r' ≠ (or_new options s).1 → heap s' !! r' = heap s !! r').
Proof.
  cbv zeta. split.
  { destruct files as [c|]; [|done]. destruct patterns as [p|]; [|done].
    cbn. by intros ->. }
  destruct files as [c|]; [|cbn; split; [lia|done]].
  destruct patterns as [[p|P]|]; [| |cbn; split; [lia|done]].
  - unfold micromatch.
    destruct (falsy_candidates c || falsy_patterns (PString p)); [cbn; split; [lia|done]|].
    pose proof (deref_or_new options s) as Hd.
    pose proof (heap_or_new_ne options s) as Hn.
    pose proof (or_new_vars options s) as (_ & _ & _ & _ & Ht).
    destruct (or_new options s) as [r0 s0]. cbn [fst snd pattern_count] in *.
    destruct (match_writes (FCand (CArray (arrayify c))) p (Some r0) s0)
      as (Hlen & Hfr & Hh).
    cbn [or_new fst] in Hh.
    split; [rewrite <- Ht; lia|split].
    + intros Hre Hru r k Hk. by rewrite Hfr, Hd.
    + intros r' Hne. by rewrite Hh, Hn.
  - rewrite micromatch_outputs.
    destruct (falsy_candidates c); [cbn; split; [lia|done]|].
    pose proof (deref_or_new options s) as Hd.
    pose proof (heap_or_new_ne options s) as Hn.
    pose proof (or_new_vars options s) as (_ & _ & _ & _ & Ht).
    destruct (or_new options s) as [r0 s0]. cbn [fst snd pattern_count] in *.
    destruct (pattern_outputs_frame (arrayify c) P r0 s0) as (Hlen & Hfr & Hh).
    destruct (pattern_outputs _ r0 P s0) as [[outs|e] s1]; cbn [fst snd] in *;
      (split; [rewrite <- Ht; lia|split;
         [intros Hre Hru r k Hk; by rewrite Hfr, Hd
         |intros r' Hne; by rewrite Hh, Hn]]).
Qed.

End Entry.

Section Resolver.
Context `{Collaborators}.


(** [match] on a string or an array fails with the [TypeError] of the
    basename test, under [matchBase], or as the compilation fails. *)
Lemma match_throw (c : candidates) (p : string) (options : option loc)
    (s : state) (e : error) :
  (match_ (FCand c) p options s).1 = Throw e →
  (e = TypeError
   ∧ truthy (get (deref (match_ (FCand c) p options s).2 (or_new options s).1)
               "matchBase") = true)
  ∨ e = SyntaxError ∨ e = TranslatorError.
Proof.
  rewrite match_unfold.
  destruct (or_new options s) as [r s0]. cbn [fst snd]. cbv zeta.
  pose proof (makeRe_throw (match_glob (deref s0 r) p) (Some r) s0) as Hthrow.
  destruct (makeRe _ _ s0) as [[re|e'] s1]; cbn [fst snd] in *.
  - pose proof (match_loop_throw re r (arrayify c) [] s1) as Hloop.
    destruct (match_loop _ _ _ _ _) as [[res|e'] s2]; cbn [fst snd] in *; [done|].
    intros [= <-]. left. by apply Hloop.
  - intros [= <-]. right. by apply Hthrow.
Qed.

Lemma pattern_outputs_throw (files P : list string) (opts : loc) (s : state)
    (e : error) :
  (pattern_outputs files opts P s).1 = Throw e →
  (e = TypeError
   ∧ truthy (get (deref (pattern_outputs files opts P s).2 opts) "matchBase") = true)
  ∨ e = SyntaxError ∨ e = TranslatorError.
Proof.
  revert s. induction P as [|p rest IH]; intros s; cbn [pattern_outputs]; [done|].
  pose proof (match_throw (CArray files) (list_glob p) (Some opts) s) as Hthrow.
  destruct (match_ _ _ _ s) as [[m|e'] s1]; cbn [fst snd or_new] in *.
  - specialize (IH s1).
    destruct (pattern_outputs files opts rest s1) as [[ms|e'] s2]; [done|].
    cbn [fst snd] in *. intros [= <-]. by apply IH.
  - intros [= <-]. by apply Hthrow.
Qed.

Lemma micromatch_throw (files : option candidates) (patterns : option patterns_arg)
    (options : option loc) (s : state) (e : error) :
  (micromatch files patterns options s).1 = Throw e →
  (e = TypeError
   ∧ truthy (get (deref (micromatch files patterns options s).2 (or_new options s).1)
               "matchBase") = true)
  ∨ e = SyntaxError ∨ e = TranslatorError.
Proof.
  destruct files as [c|]; [|done]. destruct patterns as [[p|P]|]; [| |done].
  - unfold micromatch.
    destruct (falsy_candidates c || falsy_patterns (PString p)); [done|].
    destruct (or_new options s) as [r0 s0]. cbn [fst snd].
    apply (match_throw (CArray (arrayify c)) p (Some r0) s0).
  - rewrite micromatch_outputs.
    destruct (falsy_candidates c); [done|].
    destruct (or_new options s) as [r0 s0]. cbn [fst snd].
    pose proof (pattern_outputs_throw (arrayify c) P r0 s0) as Hthrow.
    destruct (pattern_outputs _ r0 P s0) as [[outs|e'] s1]; [done|].
    cbn [fst snd] in *. intros [= <-]. by apply Hthrow.
Qed.

(** X11: the resolver never throws [InvalidInputKind]; a failure is the
    [TypeError] of the basename test, and then [matchBase] reads true in
    the options, or the [SyntaxError] of the [RegExp] constructor, or the
    failure of the translator. *)
Theorem micromatch_failures (files : option candidates)
    (patterns : option patterns_arg) (options : option loc) (s : state)
    (e : error) :
  (micromatch files patterns options s).1 = Throw e →
  e ≠ InvalidInputKind
  ∧ ((e = TypeError
      ∧ truthy (get (deref (micromatch files patterns options s).2
                       (or_new options s).1) "matchBase") = true)
     ∨ e = SyntaxError ∨ e = TranslatorError).
Proof.
  intros He. apply micromatch_throw in He as Hkind. split; [|done].
  destruct Hkind as [[-> _]|[->| ->]]; done.
Qed.

Lemma pattern_outputs_tags (files P : list string) (opts : loc) (s : state)
    (outs : list (bool * match_result)) :
  (pattern_outputs files opts P s).1 = Ok outs → outs.*1 = map list_negated P.
Proof.
  revert s outs. induction P as [|p rest IH]; intros s outs; cbn [pattern_outputs].
  - by intros [= <-].
  - destruct (match_ _ _ _ s) as [[m|e] s1]; [|done].
    specialize (IH s1).
    destruct (pattern_outputs files opts rest s1) as [[ms|e] s2]; [|done].
    cbn [fst] in *. intros [= <-]. cbn. f_equal. by apply IH.
Qed.

Lemma accumulator_other (negative : bool) (outs : list (bool * match_result)) :
  Forall (λ b, b ≠ negative) outs.*1 → accumulator negative outs = [].
Proof.
  induction outs as [|[b m] outs IH]; [done|].
  cbn [fmap list_fmap fst]. intros [Hb Houts]%Forall_cons.
  rewrite accumulator_cons, IH by done.
  destruct (Bool.eqb b negative) eqn:Heq; [|done].
  by apply Bool.eqb_prop in Heq.
Qed.

(** X12: a list in which every pattern starts with [!] selects nothing:
    when the resolver returns, it returns the empty array. *)
Theorem micromatch_only_negative (c : candidates) (P : list string)
    (options : option loc) (s : state) (m : match_result) :
  Forall (λ p, starts_with_bang p = true) P →
  (micromatch (Some c) (Some (PArray P)) options s).1 = Ok m →
  m = MFiles [].
Proof.
  intros Hbang. rewrite micromatch_outputs.
  destruct (falsy_candidates c); [by intros [= <-]|].
  destruct (or_new options s) as [r0 s0].
  pose proof (pattern_outputs_tags (arrayify c) P r0 s0) as Htags.
  destruct (pattern_outputs _ r0 P s0) as [[outs|e] s1]; cbn [fst] in *; [|done].
  intros [= <-]. rewrite accumulator_other; [done|].
  rewrite (Htags outs eq_refl). apply Forall_fmap.
  eapply Forall_impl; [exact Hbang|]. intros p Hp. unfold list_negated.
  cbn. by rewrite Hp.
Qed.

(** X13: a list of one pattern without a leading [!] behaves as that
    pattern given alone, except that the compiled pattern [nonull] would
    hand back is read as an array without elements. *)
Theorem micromatch_singleton (c : candidates) (p : string) (options : option loc)
    (s : state) :
  starts_with_bang p = false →
  p ≠ "" →
  micromatch (Some c) (Some (PArray [p])) options s =
  (as_array (micromatch (Some c) (Some (PString p)) options s).1,
   (micromatch (Some c) (Some (PString p)) options s).2).
Proof.
  intros Hbang Hp. rewrite micromatch_outputs. unfold micromatch.
  assert (falsy_patterns (PString p) = false) as ->.
  { cbn. by apply String.eqb_neq. }
  rewrite orb_false_r. destruct (falsy_candidates c); [done|].
  destruct (or_new options s) as [r0 s0].
  cbn [pattern_outputs]. unfold list_glob, list_negated. rewrite Hbang.
  destruct (match_ _ p (Some r0) s0) as [[m|e] s1]; [|done].
  cbn [fst snd as_array]. unfold accumulator.
  cbn [map concat Bool.eqb fst snd app]. by rewrite app_nil_r, diff_nil_r.
Qed.

End Resolver.

(** * [filter] *)

Section Filter.
Context `{Collaborators}.

Lemma path_test_throw (re : RegExp) (o : obj) (fp : string) (e : error) :
  path_test re o fp = Throw e → e = TypeError.
Proof.
  unfold path_test. destruct (truthy _); [|done].
  destruct (fileRe_exec fp); [done|]. by intros [= <-].
Qed.

(** The loop of the returned function, read forwards, for a matcher
    without the flags [g] and [y]: from [len] down it has removed from
    [res] the entries that do not pass, unless one of them throws. *)
Lemma filter_loop_filter (cl : closure) (rx : RegExp) (files tail : list string)
    (len : nat) (s : state) :
  let o := deref s (closure_opts cl) in
  regexps s !! closure_pattern cl = Some rx → stateful (flags rx) = false →
  (len ≤ length files)%nat →
  filter_loop cl files len (take len files ++ tail)%list s =
  (if existsb (fails rx o) (take len files) then Throw TypeError
   else Ok (List.filter (passes rx o) (take len files) ++ tail)%list, s).
Proof.
  intros o Hrx Hfl. revert tail. induction len as [|len IH]; intros tail Hlen.
  - by rewrite take_0.
  - cbn [filter_loop].
    destruct (lookup_lt_is_Some_2 files len) as [file Hfile]; [lia|].
    rewrite Hfile, (take_S_r _ _ _ Hfile), (isMatch_stateless _ _ _ rx s Hrx Hfl).
    cbn [default from_option id].
    rewrite existsb_app, List.filter_app. cbn [existsb List.filter].
    unfold fails at 2, passes at 2. fold o.
    destruct (path_test rx o file) as [[|]|e] eqn:Htest.
    + rewrite <- app_assoc. cbn [app]. rewrite IH by lia.
      rewrite !orb_false_r. by rewrite <- app_assoc.
    + rewrite <- app_assoc. cbn [app].
      assert (delete len (take len files ++ file :: tail)%list
              = (take len files ++ tail)%list) as ->.
      { rewrite <- (length_take_le files len) at 1 by lia. apply delete_middle. }
      rewrite IH by lia. by rewrite !orb_false_r, app_nil_r.
    + apply path_test_throw in Htest as ->. by rewrite orb_true_r.
Qed.

Lemma filter_call_array_eq (cl : closure) (rx : RegExp) (files : list string)
    (s : state) :
  regexps s !! closure_pattern cl = Some rx → stateful (flags rx) = false →
  filter_call cl (CArray files) s =
  (if existsb (fails rx (deref s (closure_opts cl))) files
   then Throw TypeError
   else Ok (FFiles (List.filter (passes rx (deref s (closure_opts cl))) files)), s).
Proof.
  intros Hrx Hfl. unfold filter_call.
  pose proof (filter_loop_filter cl rx files [] (length files) s Hrx Hfl) as Hloop.
  cbn zeta in Hloop. rewrite firstn_all, !app_nil_r in Hloop. rewrite Hloop by done.
  by destruct (existsb _ files).
Qed.

(** X14: when its compiled pattern has neither the flag [g] nor the flag
    [y], the function [filter] returns gives back, on an array, the
    entries that pass the test of the pattern, as they are, in order and
    with duplicates; it fails when the basename test throws on one of
    them; either way it leaves the module, the options and the matcher as
    they are. *)
Theorem filter_call_array (cl : closure) (rx : RegExp) (files : list string)
    (s : state) :
  let o := deref s (closure_opts cl) in
  regexps s !! closure_pattern cl = Some rx →
  stateful (flags rx) = false →
  filter_call cl (CArray files) s =
  (if existsb (fails rx o) files then Throw TypeError
   else Ok (FFiles (List.filter (passes rx o) files)), s).
Proof. apply filter_call_array_eq. Qed.

(** X15: on a string, the function [filter] returns answers what [isMatch]
    answers, and leaves what [isMatch] leaves: the option [inclusive]
    never changes the answer. *)
Theorem filter_call_string (cl : closure) (file : string) (s : state) :
  filter_call cl (CString file) s =
  (match (isMatch file (inl (closure_pattern cl)) (Some (closure_opts cl)) s).1 with
   | Ok m => Ok (FBool m)
   | Throw e => Throw e
   end,
   (isMatch file (inl (closure_pattern cl)) (Some (closure_opts cl)) s).2).
Proof.
  unfold filter_call.
  destruct (isMatch _ _ _ s) as [[[|]|e] s1]; cbn [fst snd]; [| |done].
  - by destruct (truthy _).
  - by rewrite andb_false_r.
Qed.

Lemma kept_unnormalised (re : RegExp) (o : obj) (files : list string) :
  Forall (λ f, normal f o = f) files →
  kept re o files =
  if existsb (fails re o) files then Throw TypeError
  else Ok (List.filter (passes re o) files).
Proof.
  induction files as [|f rest IH]; [done|]. intros [Hf Hrest]%Forall_cons.
  cbn [kept existsb List.filter]. rewrite Hf, IH by done.
  pose proof (eq_refl (fails re o f)) as Hfails.
  pose proof (eq_refl (passes re o f)) as Hpasses.
  unfold fails at 2 in Hfails. unfold passes at 2 in Hpasses.
  destruct (path_test re o f) as [[|]|e] eqn:Htest;
    rewrite Hfails, Hpasses; cbn [orb].
  - by destruct (existsb _ rest).
  - by destruct (existsb _ rest).
  - by apply path_test_throw in Htest as ->.
Qed.

(** X16: for a pattern that [match] does not negate, a normaliser that
    writes nothing and leaves the candidates as they are, and a compiled
    pattern with neither the flag [g] nor the flag [y], [match] returns
    the paths that the function built by [filter] from the same pattern
    and options returns on the same array, and both leave the same state;
    and when [filter] fails, in the compilation, [match] fails in the
    same way. *)
Theorem filter_agrees_with_match (p : string) (r : loc) (files : list string)
    (s : state) :
  let o := deref s r in
  let o' := deref (makeRe p (Some r) s).2 r in
  reads_only unixify →
  starts_with_bang p = false →
  truthy (get o "negate") = false →
  Forall (λ f, normal f o' = f) files →
  matcher_stateless (makeRe p (Some r) s) →
  match filter (inr p) (Some r) s with
  | (Ok cl, s1) =>
      (filter_call cl (CArray files) s1).2 = (match_ (FCand (CArray files)) p (Some r) s).2
      ∧ (filter_call cl (CArray files) s1).1 =
        match (match_ (FCand (CArray files)) p (Some r) s).1 with
        | Ok m => Ok (FFiles (elements m))
        | Throw e => Throw e
        end
  | (Throw e, s1) => match_ (FCand (CArray files)) p (Some r) s = (Throw e, s1)
  end.
Proof.
  intros o o' Hru Hbang Hnegate Hunix Hst. subst o'.
  rewrite match_unfold. unfold filter. cbn [or_new arrayify to_regexp]. cbv zeta. fold o.
  assert (match_glob o p = p) as ->.
  { unfold match_glob. rewrite Hbang. by case_bool_decide. }
  assert (negation o p = false) as ->.
  { unfold negation. rewrite Hbang, Hnegate. by case_bool_decide. }
  destruct (makeRe p (Some r) s) as [[re|e] s1]; cbn [fst snd] in *; [|done].
  destruct (Hst re eq_refl) as (rx & Hrx & Hfl). cbn [snd] in Hrx.
  rewrite (filter_call_array_eq (Closure re r) rx files s1 Hrx Hfl).
  rewrite (match_loop_kept re r rx _ _ s1 Hru Hrx Hfl).
  rewrite kept_unnormalised by done.
  cbn [closure_pattern closure_opts fst snd].
  destruct (existsb _ files); [done|]. cbn [fst snd app]. split; [done|].
  unfold match_answer.
  destruct (truthy _ && bool_decide (_ = [])) eqn:Hn; [|done].
  apply andb_true_iff in Hn as [_ Hres]. apply bool_decide_eq_true_1 in Hres.
  by rewrite Hres.
Qed.

End Filter.

(** * [matchKeys] *)

Section Keys.
Context `{Collaborators}.

Lemma elem_of_snoc_iff (k key : string) (l : list string) :
  k ∈ (l ++ [key])%list ↔ k ∈ l ∨ k = key.
Proof. by rewrite elem_of_app, list_elem_of_singleton. Qed.

Lemma matchKeys_loop_lookup {V : Type} (re : loc) (rx : RegExp) (obj : gmap string V)
    (keys : list string) (len : nat) (res : gmap string V) (s : state) :
  regexps s !! re = Some rx → stateful (flags rx) = false →
  (matchKeys_loop re obj keys len res s).2 = s
  ∧ ∀ k, (matchKeys_loop re obj keys len res s).1 !! k =
         if bool_decide (k ∈ take len keys) && matches rx k then obj !! k else res !! k.
Proof.
  intros Hrx Hfl. revert res. induction len as [|len IH]; intros res;
    cbn [matchKeys_loop].
  - split; [done|]. intros k. rewrite take_0.
    rewrite bool_decide_eq_false_2; [done|]. apply not_elem_of_nil.
  - destruct (keys !! len) as [key|] eqn:Hkey.
    + rewrite (test_stateless re rx key s Hrx Hfl).
      destruct (matches rx key) eqn:Htest.
      * destruct (IH (partial_alter (λ _, obj !! key) key res)) as [Hs Hk].
        split; [done|]. intros k. rewrite Hk.
        rewrite (take_S_r _ _ _ Hkey), (bool_decide_ext _ _ (elem_of_snoc_iff k key _)).
        destruct (decide (k = key)) as [->|Hne].
        -- rewrite (bool_decide_eq_true_2 (_ ∨ key = key)) by by right.
           rewrite Htest, lookup_partial_alter_eq. by destruct (bool_decide _).
        -- assert (bool_decide (k ∈ take len keys ∨ k = key)
                   = bool_decide (k ∈ take len keys)) as ->.
           { apply bool_decide_ext. intuition congruence. }
           by rewrite lookup_partial_alter_ne.
      * destruct (IH res) as [Hs Hk].
        split; [done|]. intros k. rewrite Hk.
        rewrite (take_S_r _ _ _ Hkey), (bool_decide_ext _ _ (elem_of_snoc_iff k key _)).
        destruct (decide (k = key)) as [->|Hne].
        -- rewrite (bool_decide_eq_true_2 (_ ∨ key = key)) by by right.
           by rewrite Htest, andb_false_r, andb_false_r.
        -- assert (bool_decide (k ∈ take len keys ∨ k = key)
                   = bool_decide (k ∈ take len keys)) as ->.
           { apply bool_decide_ext. intuition congruence. }
           done.
    + destruct (IH res) as [Hs Hk]. split; [done|]. intros k. rewrite Hk.
      apply lookup_ge_None in Hkey.
      by rewrite !take_ge by lia.
Qed.

Lemma matchKeys_compiled {V : Type} (re : loc) (rx : RegExp) (obj : gmap string V)
    (options : option loc) (s : state) :
  regexps s !! re = Some rx → stateful (flags rx) = false →
  ∃ res, matchKeys (inl re) obj options s = (Ok res, s)
         ∧ ∀ k, res !! k = if matches rx k then obj !! k else None.
Proof.
  intros Hrx Hfl. unfold matchKeys. cbn [to_regexp].
  destruct (matchKeys_loop_lookup re rx obj (map_to_list obj).*1
              (length (map_to_list obj).*1) ∅ s Hrx Hfl) as [Hs Hk].
  destruct (matchKeys_loop _ _ _ _ _ _) as [res s1]. cbn [fst snd] in *. subst s1.
  exists res. split; [done|]. intros k.
  rewrite Hk, firstn_all, lookup_empty.
  destruct (matches rx k); [|by rewrite andb_false_r].
  rewrite andb_true_r. case_bool_decide as Hin; [done|].
  symmetry. apply not_elem_of_dom. intros Hd. apply Hin.
  apply elem_of_dom in Hd as [v Hv].
  apply list_elem_of_fmap. exists (k, v). split; [done|]. by apply elem_of_map_to_list.
Qed.

(** X17: once [matchKeys] has its compiled pattern (the one it is given,
    or the one [makeRe] returns for the glob it is given), and when that
    pattern has neither the flag [g] nor the flag [y], it keeps exactly
    the properties whose key passes the test of the pattern, each with
    its value, and leaves the state as the compilation left it. *)
Theorem matchKeys_lookup {V : Type} (pattern : loc + string)
    (obj : gmap string V) (options : option loc) (s : state)
    (re : loc) (s1 : state) (rx : RegExp) :
  to_regexp pattern options s = (Ok re, s1) →
  regexps s1 !! re = Some rx →
  stateful (flags rx) = false →
  ∃ res, matchKeys pattern obj options s = (Ok res, s1)
         ∧ ∀ k, res !! k = if matches rx k then obj !! k else None.
Proof.
  intros Hre Hrx Hfl.
  destruct (matchKeys_compiled re rx obj options s1 Hrx Hfl) as (res & Hres & Hk).
  exists res. split; [|done].
  unfold matchKeys in *. rewrite Hre. by cbn [to_regexp] in Hres.
Qed.

(** X18: for two compiled patterns with neither the flag [g] nor the flag
    [y], filtering the result of [matchKeys] with the second keeps the
    properties whose key passes both tests; so the two filters can be
    applied in either order, and applying one twice changes nothing. *)
Theorem matchKeys_twice {V : Type} (re1 re2 : loc) (rx1 rx2 : RegExp)
    (obj : gmap string V) (options : option loc) (s : state) :
  regexps s !! re1 = Some rx1 → stateful (flags rx1) = false →
  regexps s !! re2 = Some rx2 → stateful (flags rx2) = false →
  let keys1 := returned ∅ (matchKeys (inl re1) obj options s).1 in
  let keys2 := returned ∅ (matchKeys (inl re2) obj options s).1 in
  (∀ k, returned ∅ (matchKeys (inl re2) keys1 options s).1 !! k =
        if matches rx1 k && matches rx2 k then obj !! k else None)
  ∧ returned ∅ (matchKeys (inl re2) keys1 options s).1
    = returned ∅ (matchKeys (inl re1) keys2 options s).1
  ∧ returned ∅ (matchKeys (inl re1) keys1 options s).1 = keys1.
Proof.
  intros H1 F1 H2 F2. cbn zeta.
  assert (∀ (re : loc) (rx : RegExp) (m : gmap string V) k,
            regexps s !! re = Some rx → stateful (flags rx) = false →
            returned ∅ (matchKeys (inl re) m options s).1 !! k
            = if matches rx k then m !! k else None) as Hlook.
  { intros re rx m k Hrx Hfl.
    destruct (matchKeys_compiled re rx m options s Hrx Hfl) as (res & -> & Hk).
    apply Hk. }
  split; [|split].
  - intros k. rewrite (Hlook re2 rx2), (Hlook re1 rx1) by done.
    by destruct (matches rx1 k), (matches rx2 k).
  - apply map_eq. intros k.
    rewrite (Hlook re2 rx2), (Hlook re1 rx1), (Hlook re1 rx1), (Hlook re2 rx2) by done.
    by destruct (matches rx1 k), (matches rx2 k).
  - apply map_eq. intros k. rewrite !(Hlook re1 rx1) by done.
    by destruct (matches rx1 k).
Qed.

End Keys.

(** * Examples in the reference environment *)

Import Reference.

(** C6 at work: under [matchBase], the path [dir/] has no basename and
    [isMatch] throws, right after the compilation. *)
Lemma isMatch_matchBase_witness :
  let s := loaded {[ "matchBase" := VBool true ]} in
  (isMatch "dir/" (inr "x") (Some opts) s).1 = Throw TypeError
  ∧ (basename "dir/" = None →
     (isMatch "dir/" (inr "x") (Some opts) s).2 = (makeRe "x" (Some opts) s).2).
Proof.
  exact (isMatch_matchBase "dir/" (inr "x") opts
           (loaded {[ "matchBase" := VBool true ]}) 1%positive
           (makeRe "x" (Some opts) (loaded {[ "matchBase" := VBool true ]})).2
           eq_refl eq_refl).
Defined.

(** C2: the cache is not keyed on the options the cached matcher was
    built from.  First, three calls with the glob [a]: with one options
    object, then twice with another.  The third call has the glob and the
    very options object of the second, which built the cached matcher,
    and still runs the translator and builds a new matcher: [optsCache]
    stays bound to the object of the first call, which differs.  Second,
    a call that returns the cached matcher although a property of its
    options, [negated], has another value in the options the matcher was
    built from. *)
Theorem makeRe_cache_not_last_options :
  (let s0 := initial {[ 1%positive := {[ "dot" := VBool true ]};
                        2%positive := {[ "nocase" := VBool true ]} ]} in
   let s1 := (makeRe "a" (Some 1%positive) s0).2 in
   let s2 := (makeRe "a" (Some 2%positive) s1).2 in
   let s3 := (makeRe "a" (Some 2%positive) s2).2 in
   cache s2 = Some "a" ∧ translated s2 = ["a"; "a"] ∧ globRe s2 = Some 2%positive
   ∧ translated s3 = ["a"; "a"; "a"] ∧ globRe s3 = Some 3%positive)
  ∧ (let s0 := initial {[ 1%positive := ∅; 2%positive := {[ "dot" := VBool true ]} ]} in
     let s1 := (makeRe "!x" (Some 1%positive) s0).2 in
     let s2 := (makeRe "a" (Some 2%positive) s1).2 in
     let s3 := (makeRe "a" (Some 1%positive) s2).2 in
     deref s2 1%positive !! "negated" = Some (VBool true)
     ∧ deref s2 2%positive !! "negated" = Some (VBool false)
     ∧ globRe s2 = Some 2%positive
     ∧ (makeRe "a" (Some 1%positive) s2).1 = Ok 2%positive
     ∧ translated s3 = translated s2).
Proof. by vm_compute. Qed.



(** C3 fails as stated.  On the candidate [a], the patterns [a] and
    [!!!b] give [a] in one order and nothing in the other: the glob [!b]
    that reaches [makeRe] compiles negated and leaves [negated] true in
    the shared options object; compiled after it, [a] is negated as
    well.  Under the flag [g], the patterns [x] and [!x] on the candidate
    [x] give [x] in one order and nothing in the other: the second
    pattern is served the cached matcher, whose [lastIndex] the first has
    moved.  And after a compilation of [A] under [nocase] with another
    options object, the patterns [A] and [b] on the candidate [a] give
    [a] in one order and nothing in the other: in first place [A] is
    served the matcher cached under [nocase]. *)
Lemma micromatch_order_matters :
  ((micromatch (Some (CArray ["a"])) (Some (PArray ["a"; "!!!b"])) (Some opts)
      (loaded ∅)).1 = Ok (MFiles ["a"])
   ∧ (micromatch (Some (CArray ["a"])) (Some (PArray ["!!!b"; "a"])) (Some opts)
        (loaded ∅)).1 = Ok (MFiles []))
  ∧ ((micromatch (Some (CArray ["x"])) (Some (PArray ["x"; "!x"])) (Some opts)
        (loaded {[ "flags" := VString "g" ]})).1 = Ok (MFiles ["x"])
     ∧ (micromatch (Some (CArray ["x"])) (Some (PArray ["!x"; "x"])) (Some opts)
          (loaded {[ "flags" := VString "g" ]})).1 = Ok (MFiles []))
  ∧ (let s := (makeRe "A" (Some 2%positive)
                 (initial {[ opts := ∅; 2%positive := {[ "nocase" := VBool true ]} ]})).2 in
     (micromatch (Some (CArray ["a"])) (Some (PArray ["A"; "b"])) (Some opts) s).1
       = Ok (MFiles ["a"])
     ∧ (micromatch (Some (CArray ["a"])) (Some (PArray ["b"; "A"])) (Some opts) s).1
         = Ok (MFiles [])).
Proof. by vm_compute. Qed.

(** C3 as amended, at work on three literal patterns. *)
Lemma micromatch_permutation_witness :
  match (micromatch (Some (CArray ["a.js"; "b.txt"; "c.js"]))
           (Some (PArray ["a.js"; "!c.js"; "c.js"])) (Some opts) (loaded ∅)).1,
        (micromatch (Some (CArray ["a.js"; "b.txt"; "c.js"]))
           (Some (PArray ["!c.js"; "a.js"; "c.js"])) (Some opts) (loaded ∅)).1 with
  | Ok m, Ok m' => ∀ x, x ∈ elements m ↔ x ∈ elements m'
  | Throw _, Throw _ => True
  | _, _ => False
  end.
Proof.
  apply (micromatch_permutation (CArray ["a.js"; "b.txt"; "c.js"])
           ["a.js"; "!c.js"; "c.js"] ["!c.js"; "a.js"; "c.js"] (Some opts) (loaded ∅)).
  - reflexivity.
  - repeat (apply Forall_cons; split; [reflexivity|]). apply Forall_nil_2.
  - left. reflexivity.
  - repeat (apply Forall_cons; split;
              [repeat (split; [reflexivity|]);
               right; intros p Hp; cbn in Hp; injection Hp as <-; reflexivity|]).
    apply Forall_nil_2.
  - apply perm_swap.
Defined.

(** C4 fails as stated: with [negate: true] alone, [match] on the pattern
    [a] returns the candidate that matches, not the others. *)
Lemma match_negate_not_forced :
  (match_ (FCand (CArray ["a"; "b"])) "a" (Some opts)
     (loaded {[ "negate" := VBool true ]})).1 = Ok (MFiles ["a"]).
Proof. by vm_compute. Qed.

(** C4 as amended, at work: [negate] with [nonegate: true] negates. *)
Lemma match_negate_option_witness :
  (match_ (FCand (CArray ["a"; "b"])) "a" (Some opts)
     (loaded {[ "negate" := VBool true; "nonegate" := VBool true ]})).1
  = Ok (MFiles ["b"]).
Proof.
  exact (proj1 (match_negate_option (CArray ["a"; "b"]) "a" opts
                  (loaded {[ "negate" := VBool true; "nonegate" := VBool true ]})
                  eq_refl eq_refl)).
Defined.

(** C5 fails as stated: under [nonull] a match without result returns the
    compiled pattern, which is no sequence of candidates; and under the
    flag [g], of two equal candidates that match only the first is
    returned, since the test of the first moves [lastIndex]. *)
Lemma match_result_not_candidates :
  (let r := match_ (FCand (CArray ["a"])) "b" (Some opts)
              (loaded {[ "nonull" := VBool true ]}) in
   r.1 = Ok (MPattern 1%positive)
   ∧ regexps r.2 !! 1%positive = Some (mkRegExp "^(?:b)$" "" 0))
  ∧ (match_ (FCand (CArray ["a"; "a"])) "a" (Some opts)
       (loaded {[ "flags" := VString "g" ]})).1 = Ok (MFiles ["a"]).
Proof. by vm_compute. Qed.

(** Where normalisation rewrites a path, the path returned is the
    normalised one, which is not among the candidates. *)
Example match_returns_normalised :
  (match_ (FCand (CArray ["a\b"])) "a/b" (Some opts) (loaded ∅)).1
  = Ok (MFiles ["a/b"]).
Proof. by vm_compute. Qed.

(** C5 as amended, at work. *)
Lemma match_result_shape_witness :
  ["a"; "a"] `sublist_of` ["a"; "b"; "a"]
  ∧ (matcher_stateless (makeRe "a" (Some opts) (loaded ∅)) →
     ∃ keep : string → bool, ["a"; "a"] = List.filter keep ["a"; "b"; "a"]).
Proof.
  exact (match_result_shape (CArray ["a"; "b"; "a"]) "a" (Some opts) (loaded ∅)
           (λ _ _, eq_refl)).
Defined.

(** C7 fails as stated: on an empty array of candidates and a single
    pattern, the resolver returns the compiled pattern under [nonull],
    and fails when the flags are not accepted by the [RegExp]
    constructor (here [i] twice, from [flags] and from [nocase]). *)
Lemma micromatch_empty_nonull :
  (let r := micromatch (Some (CArray [])) (Some (PString "whatever")) (Some opts)
              (loaded {[ "nonull" := VBool true ]}) in
   r.1 = Ok (MPattern 1%positive)
   ∧ regexps r.2 !! 1%positive = Some (mkRegExp "^(?:whatever)$" "" 0))
  ∧ (micromatch (Some (CArray [])) (Some (PString "whatever")) (Some opts)
       (loaded {[ "flags" := VString "i"; "nocase" := VBool true ]})).1
    = Throw SyntaxError.
Proof. by vm_compute. Qed.

(** C7 as amended, at work: the same call without [nonull]. *)
Lemma micromatch_empty_input_witness :
  (micromatch (Some (CArray [])) (Some (PString "whatever")) (Some opts)
     (loaded ∅)).1 = Ok (MFiles []).
Proof.
  etrans.
  - apply (proj2 (proj2 (micromatch_empty_input (Some (CArray []))
                           (Some (PString "whatever")) (Some opts) (loaded ∅) eq_refl))
             "whatever").
    + reflexivity.
    + reflexivity.
    + discriminate.
  - vm_compute. reflexivity.
Defined.

(** C8: on an array of strings [match] can still fail, with an error that
    is not [InvalidInputKind]: under [matchBase], the candidate [dir/] has
    no basename, [exec] returns [null] and [isMatch] indexes it. *)
Theorem match_matchBase_TypeError :
  (match_ (FCand (CArray ["dir/"])) "x" (Some opts)
     (loaded {[ "matchBase" := VBool true ]})).1 = Throw TypeError.
Proof. by vm_compute. Qed.

(** * Further examples in the reference environment *)

(** X1 at work. *)
Lemma equal_order_witness :
  equal {[ "nocase" := VBool true; "dot" := VBool true ]} (∅ : obj) = true.
Proof.
  exact (proj1 (proj2 (proj2 (equal_order
           {[ "nocase" := VBool true; "dot" := VBool true ]}
           {[ "nocase" := VBool true ]} ∅))) eq_refl eq_refl).
Defined.

(** X2 at work. *)
Lemma optsCache_bound_once_witness :
  optsCache (run_calls [("b", None); ("c", Some 2%positive)]
               (makeRe "a" (Some opts) (loaded ∅)).2) = Some opts.
Proof.
  exact (proj2 (optsCache_bound_once "a" opts opts
                  (makeRe "a" (Some opts) (loaded ∅)).2
                  [("b", None); ("c", Some 2%positive)]) eq_refl).
Defined.

(** X3 at work. *)
Lemma makeRe_normalises_on_glob_change_witness :
  let s := (makeRe "a" (Some opts) (loaded ∅)).2 in
  let o := deref s opts in
  translated (makeRe "x\y" (Some opts) s).2 = (unixify "x\y" o).1 :: translated s
  ∧ cache (makeRe "x\y" (Some opts) s).2 = Some (unixify "x\y" o).1
  ∧ built (compile (flags_of o) (unixify "x\y" o).1 (unixify "x\y" o).2).1
          (makeRe "x\y" (Some opts) s).
Proof.
  apply (proj2 (makeRe_normalises_on_glob_change "x\y" opts
                  (makeRe "a" (Some opts) (loaded ∅)).2)) with (g0 := "a").
  - vm_compute. reflexivity.
  - reflexivity.
  - discriminate.
Defined.

(** X4 at work. *)
Lemma makeRe_twice_witness :
  makeRe "a" (Some opts) (makeRe "a" (Some opts) (loaded ∅)).2
  = makeRe "a" (Some opts) (loaded ∅).
Proof.
  exact (makeRe_twice "a" opts (loaded ∅) 1%positive (or_introl eq_refl) eq_refl eq_refl).
Defined.

(** X5 at work. *)
Lemma makeRe_empty_options_hit_witness :
  let s := (makeRe "a" (Some opts) (loaded {[ "nocase" := VBool true ]})).2 in
  (makeRe "a" None s).1 = Ok 1%positive
  ∧ translated (makeRe "a" None s).2 = translated s
  ∧ regexps (makeRe "a" None s).2 = regexps s.
Proof.
  exact (makeRe_empty_options_hit "a" None
           (makeRe "a" (Some opts) (loaded {[ "nocase" := VBool true ]})).2
           1%positive eq_refl (ex_intro _ opts eq_refl) eq_refl eq_refl).
Defined.

(** X6 at work. *)
Lemma makeRe_compiled_polarity_witness :
  negated_matcher (mkRegExp "^(?!^(?:x)$).*$" "" 0)
  ↔ truthy (get (deref (makeRe "!x" (Some opts) (loaded ∅)).2 opts) "negated") = true.
Proof.
  apply (makeRe_compiled_polarity "!x" opts (loaded ∅) 1%positive).
  - discriminate.
  - reflexivity.
  - reflexivity.
Defined.

(** X19 at work: [i] twice in the flags. *)
Lemma makeRe_failure_witness :
  let s := loaded {[ "flags" := VString "i"; "nocase" := VBool true ]} in
  let s' := (makeRe "a" (Some opts) s).2 in
  (SyntaxError = SyntaxError ∨ SyntaxError = TranslatorError)
  ∧ globRe s' = None ∧ is_Some (cache s')
  ∧ optsCache s' = Some (default opts (optsCache s))
  ∧ (∃ g, translated s' = g :: translated s)
  ∧ ∃ g2, translated (makeRe "a" (Some opts) s').2 = g2 :: translated s'.
Proof.
  exact (makeRe_failure "a" opts
           (loaded {[ "flags" := VString "i"; "nocase" := VBool true ]})
           SyntaxError "a" (Some opts) eq_refl).
Defined.

(** X7 at work. *)
Lemma match_frame_witness :
  deref (match_ (FCand (CArray ["a"; "b"])) "!a" (Some opts)
           (loaded {[ "nocase" := VBool true ]})).2 opts !! "nocase"
  = deref (loaded {[ "nocase" := VBool true ]}) opts !! "nocase".
Proof.
  apply (proj1 (proj2 (proj2 (match_frame (FCand (CArray ["a"; "b"])) "!a" (Some opts)
                  (loaded {[ "nocase" := VBool true ]}))))).
  - intros g o. reflexivity.
  - intros f o. reflexivity.
  - discriminate.
Defined.

(** X10 at work. *)
Lemma micromatch_frame_witness :
  deref (micromatch (Some (CArray ["a"; "b"])) (Some (PArray ["a"; "!b"]))
           (Some opts) (loaded {[ "nocase" := VBool true ]})).2 opts !! "nocase"
  = deref (loaded {[ "nocase" := VBool true ]}) opts !! "nocase".
Proof.
  apply (proj1 (proj2 (proj2 (micromatch_frame (Some (CArray ["a"; "b"]))
                  (Some (PArray ["a"; "!b"])) (Some opts)
                  (loaded {[ "nocase" := VBool true ]}))))).
  - intros g o. reflexivity.
  - intros f o. reflexivity.
  - discriminate.
Defined.

(** X8 at work. *)
Lemma match_bang_complement_witness :
  match_ (FCand (CArray ["a"; "b"])) "!a" (Some opts) (loaded ∅) =
  (Ok (MFiles ["b"]), (match_ (FCand (CArray ["a"; "b"])) "a" (Some opts) (loaded ∅)).2).
Proof.
  etrans.
  - apply (match_bang_complement (CArray ["a"; "b"]) "a" (Some opts) (loaded ∅)).
    + discriminate.
    + reflexivity.
  - vm_compute. reflexivity.
Defined.

(** X11 at work. *)
Lemma micromatch_failures_witness :
  let r := micromatch (Some (CArray ["a"])) (Some (PString "a")) (Some opts)
             (loaded {[ "flags" := VString "i"; "nocase" := VBool true ]}) in
  SyntaxError ≠ InvalidInputKind
  ∧ ((SyntaxError = TypeError
      ∧ truthy (get (deref r.2 opts) "matchBase") = true)
     ∨ SyntaxError = SyntaxError ∨ SyntaxError = TranslatorError).
Proof.
  exact (micromatch_failures (Some (CArray ["a"])) (Some (PString "a")) (Some opts)
           (loaded {[ "flags" := VString "i"; "nocase" := VBool true ]})
           SyntaxError eq_refl).
Defined.

(** X12 at work. *)
Lemma micromatch_only_negative_witness :
  (MFiles [] : match_result) = MFiles [].
Proof.
  apply (micromatch_only_negative (CArray ["a"; "c"]) ["!a"; "!b"] (Some opts)
           (loaded ∅)).
  - repeat constructor.
  - reflexivity.
Defined.

(** X13 at work. *)
Lemma micromatch_singleton_witness :
  micromatch (Some (CArray ["a"; "b"])) (Some (PArray ["c"])) (Some opts)
    (loaded {[ "nonull" := VBool true ]}) =
  (Ok (MFiles []),
   (micromatch (Some (CArray ["a"; "b"])) (Some (PString "c")) (Some opts)
      (loaded {[ "nonull" := VBool true ]})).2).
Proof.
  etrans.
  - apply (micromatch_singleton (CArray ["a"; "b"]) "c" (Some opts)
             (loaded {[ "nonull" := VBool true ]})).
    + reflexivity.
    + discriminate.
  - vm_compute. reflexivity.
Defined.

(** X14 at work. *)
Lemma filter_call_array_witness :
  let s1 := (filter (inr "a") (Some opts) (loaded ∅)).2 in
  filter_call (Closure 1%positive opts) (CArray ["a"; "b"; "a"]) s1
  = (Ok (FFiles ["a"; "a"]), s1).
Proof.
  etrans.
  - apply (filter_call_array (Closure 1%positive opts) (mkRegExp "^(?:a)$" "" 0)
             ["a"; "b"; "a"] (filter (inr "a") (Some opts) (loaded ∅)).2).
    + reflexivity.
    + reflexivity.
  - vm_compute. reflexivity.
Defined.

(** X16 at work. *)
Lemma filter_agrees_with_match_witness :
  let s1 := (filter (inr "a") (Some opts) (loaded ∅)).2 in
  (filter_call (Closure 1%positive opts) (CArray ["a"; "b"; "a"]) s1).2
  = (match_ (FCand (CArray ["a"; "b"; "a"])) "a" (Some opts) (loaded ∅)).2
  ∧ (filter_call (Closure 1%positive opts) (CArray ["a"; "b"; "a"]) s1).1 =
    match (match_ (FCand (CArray ["a"; "b"; "a"])) "a" (Some opts) (loaded ∅)).1 with
    | Ok m => Ok (FFiles (elements m))
    | Throw e => Throw e
    end.
Proof.
  refine (filter_agrees_with_match "a" opts ["a"; "b"; "a"] (loaded ∅) _ _ _ _ _).
  - intros f o. reflexivity.
  - reflexivity.
  - reflexivity.
  - repeat constructor.
  - intros l [= <-]. by eexists.
Defined.


(** X17 at work. *)
Lemma matchKeys_lookup_witness :
  let obj : gmap string nat := {[ "a" := 1; "b" := 2 ]} in
  let s1 := (makeRe "a" (Some opts) (loaded ∅)).2 in
  ∃ res, matchKeys (inr "a") obj (Some opts) (loaded ∅) = (Ok res, s1)
         ∧ ∀ k, res !! k = if matches (mkRegExp "^(?:a)$" "" 0) k then obj !! k else None.
Proof.
  exact (matchKeys_lookup (inr "a") ({[ "a" := 1; "b" := 2 ]} : gmap string nat)
           (Some opts) (loaded ∅) 1%positive (makeRe "a" (Some opts) (loaded ∅)).2
           (mkRegExp "^(?:a)$" "" 0) eq_refl eq_refl eq_refl).
Defined.

(** X18 at work. *)
Lemma matchKeys_twice_witness :
  let s := State None None None ∅
             {[ 1%positive := mkRegExp "^(?:a)$" "" 0;
                2%positive := mkRegExp "^(?!^(?:b)$).*$" "" 0 ]} [] in
  let obj : gmap string nat := {[ "a" := 1; "b" := 2; "c" := 3 ]} in
  let keys1 := returned ∅ (matchKeys (inl 1%positive) obj None s).1 in
  returned ∅ (matchKeys (inl 1%positive) keys1 None s).1 = keys1.
Proof.
  exact (proj2 (proj2 (matchKeys_twice 1%positive 2%positive
           (mkRegExp "^(?:a)$" "" 0) (mkRegExp "^(?!^(?:b)$).*$" "" 0)
           ({[ "a" := 1; "b" := 2; "c" := 3 ]} : gmap string nat) None
           (State None None None ∅
              {[ 1%positive := mkRegExp "^(?:a)$" "" 0;
                 2%positive := mkRegExp "^(?!^(?:b)$).*$" "" 0 ]} [])
           eq_refl eq_refl eq_refl eq_refl))).
Defined.
